(** * gomcp: the shared-resource coordination layer

    A shallow embedding of the three coordination components of gomcp:
    the CDP endpoint cache ([cdpEndpointStore], [resolveCDPEndpoint]),
    the cross-process tab pool ([targetStore]) and the in-process session
    registry ([Sessions]).

    Go strings are byte sequences: they are modelled by [string], whose
    characters are the 256 byte values.  Go's multiple return values are
    tuples, a Go [error] is an [option error] ([None] is [nil]), and the
    operating system (files, advisory locks, the network) is an explicit
    [World] threaded through the code by a small state monad. *)

From Stdlib Require Import Ascii String NArith.
From stdpp Require Import base option list sorting strings gmap relations.

Local Open Scope string_scope.
Local Open Scope list_scope.

(** ** The parts of the Go standard library the code calls *)

Module GoLib.

(** *** [strings.TrimSpace]

    [strings.TrimSpace] removes leading and trailing runes for which
    [unicode.IsSpace] holds.  A rune is recognised through its canonical
    UTF-8 encoding, so the function is modelled on bytes: the six ASCII
    spaces, U+0085 and U+00A0 (two bytes), and U+1680, U+2000..U+200A,
    U+2028, U+2029, U+202F, U+205F and U+3000 (three bytes). *)

Definition byte (c : ascii) : N := N_of_ascii c.

Definition asciiSpace (c : ascii) : bool :=
  ((9 <=? byte c) && (byte c <=? 13) || (byte c =? 32))%N.

Definition space2 (c1 c2 : ascii) : bool :=
  ((byte c1 =? 194) && ((byte c2 =? 133) || (byte c2 =? 160)))%N.

Definition space3 (c1 c2 c3 : ascii) : bool :=
  ((byte c1 =? 225) && (byte c2 =? 154) && (byte c3 =? 128)
   || (byte c1 =? 226) && (byte c2 =? 128)
      && ((128 <=? byte c3) && (byte c3 <=? 138)
          || (byte c3 =? 168) || (byte c3 =? 169) || (byte c3 =? 175))
   || (byte c1 =? 226) && (byte c2 =? 129) && (byte c3 =? 159)
   || (byte c1 =? 227) && (byte c2 =? 128) && (byte c3 =? 128))%N.

Section trim.
(** One-, two- and three-byte white space, in the order in which the bytes
    are met: front to back for the left trim, back to front for the right
    trim. *)
Variable sp1 : ascii → bool.
Variable sp2 : ascii → ascii → bool.
Variable sp3 : ascii → ascii → ascii → bool.

(** The remainder after one leading white-space rune, if there is one. *)
Definition lead (l : list ascii) : option (list ascii) :=
  match l with
  | [] => None
  | c1 :: l1 =>
      if sp1 c1 then Some l1 else
      match l1 with
      | [] => None
      | c2 :: l2 =>
          if sp2 c1 c2 then Some l2 else
          match l2 with
          | [] => None
          | c3 :: l3 => if sp3 c1 c2 c3 then Some l3 else None
          end
      end
  end.

Fixpoint trim_lead (l : list ascii) : list ascii :=
  match l with
  | [] => []
  | c1 :: l1 =>
      if sp1 c1 then trim_lead l1 else
      match l1 with
      | [] => l
      | c2 :: l2 =>
          if sp2 c1 c2 then trim_lead l2 else
          match l2 with
          | [] => l
          | c3 :: l3 => if sp3 c1 c2 c3 then trim_lead l3 else l
          end
      end
  end.
End trim.

Definition trimLeft : list ascii → list ascii :=
  trim_lead asciiSpace space2 space3.

Definition trimRight (l : list ascii) : list ascii :=
  rev (trim_lead asciiSpace (λ c2 c1, space2 c1 c2)
                 (λ c3 c2 c1, space3 c1 c2 c3) (rev l)).

Definition strings_TrimSpace (s : string) : string :=
  string_of_list_ascii (trimRight (trimLeft (list_ascii_of_string s))).

(** *** [strings.Contains] *)

Fixpoint strings_HasPrefix (s prefix : string) : bool :=
  match prefix, s with
  | "", _ => true
  | String p prefix', String c s' =>
      if decide (c = p) then strings_HasPrefix s' prefix' else false
  | String _ _, "" => false
  end.

Fixpoint strings_Contains (s substr : string) : bool :=
  strings_HasPrefix s substr ||
  match s with
  | "" => false
  | String _ s' => strings_Contains s' substr
  end.

(** *** [sort.Strings]

    [sort.Strings] sorts in increasing byte-wise lexicographic order.  The
    order is total and antisymmetric, so the sorted list is determined by
    the multiset of its elements (equal strings cannot be told apart). *)

Definition sort_Strings (l : list string) : list string :=
  merge_sort String.le l.

(** *** [net.JoinHostPort]

    A host with a colon is taken for a literal IPv6 address and put between
    brackets. *)

Definition has_byte (c : ascii) (s : string) : bool :=
  bool_decide (c ∈ list_ascii_of_string s).

Definition net_JoinHostPort (host port : string) : string :=
  if has_byte ":"%char host
  then "[" +:+ host +:+ "]:" +:+ port
  else host +:+ ":" +:+ port.

(** *** [net.SplitHostPort]

    Only the success of the split matters to the caller; the checks are the
    library's, in its order.  [None] stands for the [*AddrError]. *)

Fixpoint index_byte (c : ascii) (l : list ascii) : option nat :=
  match l with
  | [] => None
  | x :: l' => if decide (x = c) then Some 0 else S <$> index_byte c l'
  end.

Definition last_index_byte (c : ascii) (l : list ascii) : option nat :=
  (λ i, length l - 1 - i) <$> index_byte c (rev l).

Definition net_SplitHostPort (hostport : string) : option (string * string) :=
  let hp := list_ascii_of_string hostport in
  match last_index_byte ":"%char hp with
  | None => None                                  (* missing port *)
  | Some i =>
      let bracketed :=
        match hp with "["%char :: _ => true | _ => false end in
      let split : option (list ascii * nat * nat) :=
        if bracketed then
          match index_byte "]"%char hp with
          | None => None                          (* missing ']' *)
          | Some e =>
              if decide (e + 1 = length hp) then None
              else if decide (e + 1 = i)
                   then Some (take (e - 1) (drop 1 hp), 1, e + 1)
                   else None
          end
        else
          let host := take i hp in
          if index_byte ":"%char host is Some _ then None (* too many colons *)
          else Some (host, 0, 0) in
      match split with
      | None => None
      | Some (host, j, k) =>
          if index_byte "["%char (drop j hp) is Some _ then None
          else if index_byte "]"%char (drop k hp) is Some _ then None
          else Some (string_of_list_ascii host,
                     string_of_list_ascii (drop (i + 1) hp))
      end
  end.

End GoLib.

Import GoLib.

(** ** Errors *)

(** The [error] values the code creates, receives and wraps. *)
Inductive error : Type :=
  | ErrNotExist                         (* os.ErrNotExist *)
  | ErrPath (op path : string)          (* any other *os.PathError *)
  | ErrFlock (path : string)            (* the advisory lock was not acquired *)
  | ErrJSON                             (* encoding/json: syntax or type error *)
  | ErrURL (raw : string)               (* *url.Error of url.Parse *)
  | ErrRequest (endpoint : string)      (* http: the request was not answered *)
  | ErrNew (msg : string)               (* errors.New and fmt.Errorf without %w *)
  | ErrStatus (code : nat)              (* fmt.Errorf("json/version status %d") *)
  | ErrWrap (msg : string) (e : error). (* fmt.Errorf("msg: %w", e) *)

(** [errors.Is(err, os.ErrNotExist)]: follows the chain of wrapped errors. *)
Fixpoint errors_Is_NotExist (e : error) : bool :=
  match e with
  | ErrNotExist => true
  | ErrWrap _ e' => errors_Is_NotExist e'
  | _ => false
  end.

(** ** The world outside the process *)

Inductive http_response : Type :=
  | NoResponse                               (* Do returned an error *)
  | Response (status : nat) (body : string).

Inductive event : Type :=
  | EvReadFile (path : string)
  | EvWriteFile (path data : string)
  | EvRename (oldpath newpath : string)
  | EvRemove (path : string)
  | EvLock (path : string)
  | EvUnlock (path : string)
  | EvHTTPGet (endpoint : string)
  | EvWarn (msg : string) (e : error).

(** [files] are the regular files of the configuration directory; [faulty]
    are the paths on which the operating system refuses every operation
    (permissions, a directory in the way, a full disk); [held] are the
    advisory locks held; [http] is what the network answers to a GET;
    [trace] records every system call made, most recent first. *)
Record World : Type := mkWorld {
  files : gmap string string;
  faulty : gset string;
  held : gset string;
  http : string → http_response;
  trace : list event;
}.

Definition set_files (f : gmap string string → gmap string string) (w : World) :=
  mkWorld (f (files w)) (faulty w) (held w) (http w) (trace w).
Definition set_held (f : gset string → gset string) (w : World) :=
  mkWorld (files w) (faulty w) (f (held w)) (http w) (trace w).
Definition set_trace (f : list event → list event) (w : World) :=
  mkWorld (files w) (faulty w) (held w) (http w) (f (trace w)).

(** Code that performs system calls is a state transformer over [World]. *)
Definition IO (A : Type) : Type := World → A * World.

#[global] Instance IO_ret : MRet IO := λ A a w, (a, w).
#[global] Instance IO_bind : MBind IO :=
  λ A B k m w, let '(a, w') := m w in k a w'.

Definition emit (e : event) : IO unit := λ w, (tt, set_trace (cons e) w).
Definition get_world : IO World := λ w, (w, w).
Definition modify (f : World → World) : IO unit := λ w, (tt, f w).

Module os.

(** [os.ReadFile]: the whole content, or an error. *)
Definition ReadFile (path : string) : IO (string * option error) :=
  _ ← emit (EvReadFile path);
  w ← get_world;
  if decide (path ∈ faulty w) then mret ("", Some (ErrPath "open" path))
  else match files w !! path with
       | Some b => mret (b, None)
       | None => mret ("", Some ErrNotExist)
       end.

(** [os.WriteFile]: creates or truncates the file and writes [data].  The
    call as a whole is not atomic; [AtomicWrite] below splits it into its
    steps. *)
Definition WriteFile (path data : string) : IO (option error) :=
  _ ← emit (EvWriteFile path data);
  w ← get_world;
  if decide (path ∈ faulty w) then mret (Some (ErrPath "open" path))
  else _ ← modify (set_files (insert path data)); mret None.

(** [os.Rename]: atomically replaces [newpath] by [oldpath]. *)
Definition Rename (oldpath newpath : string) : IO (option error) :=
  _ ← emit (EvRename oldpath newpath);
  w ← get_world;
  if decide (oldpath ∈ faulty w ∨ newpath ∈ faulty w)
  then mret (Some (ErrPath "rename" oldpath))
  else match files w !! oldpath with
       | None => mret (Some ErrNotExist)
       | Some b =>
           _ ← modify (set_files (λ fs, <[newpath := b]> (delete oldpath fs)));
           mret None
       end.

(** [os.Remove] *)
Definition Remove (path : string) : IO (option error) :=
  _ ← emit (EvRemove path);
  w ← get_world;
  if decide (path ∈ faulty w) then mret (Some (ErrPath "remove" path))
  else match files w !! path with
       | None => mret (Some ErrNotExist)
       | Some _ => _ ← modify (set_files (delete path)); mret None
       end.

End os.

(** [github.com/gofrs/flock]: [Lock] creates the lock file when it is missing
    and takes the advisory lock on it; [Unlock] releases the lock and leaves
    the file.  Waiting for another holder is outside this sequential model. *)
Module flock.

Definition Lock (path : string) : IO (option error) :=
  _ ← emit (EvLock path);
  w ← get_world;
  if decide (path ∈ faulty w) then mret (Some (ErrFlock path))
  else
    _ ← modify (set_files (λ fs, if fs !! path is Some _ then fs
                                 else <[path := ""]> fs));
    _ ← modify (set_held (union {[path]}));
    mret None.

Definition Unlock (path : string) : IO unit :=
  _ ← emit (EvUnlock path);
  modify (set_held (λ h, h ∖ {[path]})).

End flock.

(** [log/slog.Warn] *)
Definition slog_Warn (msg : string) (e : error) : IO unit :=
  emit (EvWarn msg e).

(** ** The persisted states and their JSON encoding *)

Module targetState.

(** [type targetState struct { Idle []string `json:"idle"` }].  A nil and
    an empty slice are both the empty list. *)
Record t : Type := mk { Idle : list string }.

(** One iteration of the loop of [compact]: [set] is the map of the
    identifiers already kept, [idle] the slice built so far. *)
Definition compact_step (acc : gset string * list string) (id : string)
  : gset string * list string :=
  let '(set, idle) := acc in
  let id := strings_TrimSpace id in
  if decide (id = "") then acc
  else if decide (id ∈ set) then acc
  else ({[id]} ∪ set, idle ++ [id]).

Definition compact (state : t) : t :=
  if decide (length (Idle state) = 0) then state
  else
    let '(_, idle) := foldl compact_step (∅, []) (Idle state) in
    mk (sort_Strings idle).

End targetState.

Module cdpEndpointState.

(** [type cdpEndpointState struct { Entries map[string]string }]; [None]
    is the nil map. *)
Record t : Type := mk { Entries : option (gmap string string) }.

End cdpEndpointState.

(** [encoding/json] for the three shapes the code encodes and decodes.  The
    library is outside the repository: its functions are the methods of an
    interface, and what a theorem needs of them is a hypothesis of that
    theorem.  [None] is a decoding error.  [Unmarshal_cdpEndpointState]
    decodes into a state whose [Entries] is an empty, non-nil map, as [read]
    calls it; [Decode_version] yields the field [webSocketDebuggerUrl] of the
    body, empty when the body has no such field. *)
Class JSON : Type := {
  Marshal_targetState : targetState.t → string;
  Unmarshal_targetState : string → option targetState.t;
  Marshal_cdpEndpointState : cdpEndpointState.t → string;
  Unmarshal_cdpEndpointState : string → option cdpEndpointState.t;
  Decode_version : string → option string;
}.

(** ** The tab pool *)

Module targetStore.
Section with_json.
Context {json : JSON}.

(** [type targetStore struct { mu sync.Mutex; path string; lock *flock.Flock }]:
    [lock] is the path of the lock file.  The mutex serialises the
    goroutines of one process and has no effect on a sequential run. *)
Record t : Type := mk { path : string; lock : string }.

(** What [newTargetStore] builds for the state file [statePath]. *)
Definition at_path (statePath : string) : t :=
  mk statePath (statePath +:+ ".lock").

Definition read (s : t) : IO (targetState.t * option error) :=
  '(b, err) ← os.ReadFile (path s);
  match err with
  | Some e =>
      if errors_Is_NotExist e then mret (targetState.mk [], None)
      else mret (targetState.mk [], Some (ErrWrap "read tab state" e))
  | None =>
      match Unmarshal_targetState b with
      | None => mret (targetState.mk [], Some (ErrWrap "decode tab state" ErrJSON))
      | Some state => mret (targetState.compact state, None)
      end
  end.

Definition write (s : t) (state : targetState.t) : IO (option error) :=
  let data := Marshal_targetState state in
  let tmp := path s +:+ ".tmp" in
  err ← os.WriteFile tmp data;
  match err with
  | Some e => mret (Some (ErrWrap "write tab state" e))
  | None => os.Rename tmp (path s)
  end.

(** [defer s.lock.Unlock()]: the lock is released when the function
    returns, whatever it returns. *)
Definition deferring_Unlock {A} (s : t) (body : IO A) : IO A :=
  r ← body;
  _ ← flock.Unlock (lock s);
  mret r.

(** The part of [Checkout] that runs with the lock held. *)
Definition Checkout_locked (s : t) : IO (string * option error) :=
  '(state, err) ← read s;
  match err with
  | Some e => mret ("", Some e)
  | None =>
      match targetState.Idle state with
      | [] => mret ("", None)                   (* len(state.Idle) == 0 *)
      | id :: rest =>                           (* state.Idle[0], state.Idle[1:] *)
          err ← write s (targetState.mk rest);
          match err with
          | Some e => mret ("", Some e)
          | None => mret (id, None)
          end
      end
  end.

Definition Checkout (s : option t) : IO (string * option error) :=
  match s with
  | None => mret ("", None)
  | Some s =>
      err ← flock.Lock (lock s);
      match err with
      | Some e => mret ("", Some (ErrWrap "acquire tab lock" e))
      | None => deferring_Unlock s (Checkout_locked s)
      end
  end.

(** The part of [Checkin] that runs with the lock held. *)
Definition Checkin_locked (s : t) (id : string) : IO (option error) :=
  '(state, err) ← read s;
  match err with
  | Some e => mret (Some e)
  | None =>
      (* the loop that returns nil when an element equals [id] *)
      if decide (id ∈ targetState.Idle state) then mret None
      else
        write s (targetState.compact
                   (targetState.mk (targetState.Idle state ++ [id])))
  end.

Definition Checkin (s : option t) (id : string) : IO (option error) :=
  match s with
  | None => mret None
  | Some s =>
      if decide (id = "") then mret None else
      err ← flock.Lock (lock s);
      match err with
      | Some e => mret (Some (ErrWrap "acquire tab lock" e))
      | None => deferring_Unlock s (Checkin_locked s id)
      end
  end.

Definition Clear (s : option t) : IO (option error) :=
  match s with
  | None => mret None
  | Some s =>
      err ← os.Remove (path s);
      match err with
      | Some e =>
          if errors_Is_NotExist e then mret None
          else mret (Some (ErrWrap "remove tab state" e))
      | None => mret None
      end
  end.

End with_json.
End targetStore.

(** ** The endpoint cache *)

Module url.

(** [net/url.URL].  [User] is the user-information text, if any. *)
Record URL : Type := mk {
  Scheme : string;
  Opaque : string;
  User : option string;
  Host : string;
  Path : string;
  RawPath : string;
  ForceQuery : bool;
  RawQuery : string;
  Fragment : string;
  RawFragment : string;
}.

(** The assignment [u.Host = host]. *)
Definition set_Host (host : string) (u : URL) : URL :=
  mk (Scheme u) (Opaque u) (User u) host (Path u) (RawPath u)
     (ForceQuery u) (RawQuery u) (Fragment u) (RawFragment u).

End url.

(** [net/url]: [url.Parse] and [URL.String] are the library's; the code
    is stated over any implementation of them. *)
Class NetURL : Type := {
  url_Parse : string → error + url.URL;
  URL_String : url.URL → string;
}.

(** [http.DefaultClient.Do] of a GET request built for [endpoint], under the
    five-second deadline.  A request that cannot be built, is cancelled or
    times out is [NoResponse]. *)
Definition http_Get (endpoint : string) : IO http_response :=
  _ ← emit (EvHTTPGet endpoint);
  w ← get_world;
  mret (http w endpoint).

Module cdpEndpointStore.
Section with_json.
Context {json : JSON}.

(** [type cdpEndpointStore struct { path string; mu sync.Mutex }] *)
Record t : Type := mk { path : string }.

(** [cdpEndpointState{Entries: make(map[string]string)}] *)
Definition empty_state : cdpEndpointState.t := cdpEndpointState.mk (Some ∅).

Definition read (s : t) : IO (cdpEndpointState.t * option error) :=
  '(b, err) ← os.ReadFile (path s);
  match err with
  | Some e =>
      if errors_Is_NotExist e then mret (empty_state, None)
      else mret (empty_state, Some e)
  | None =>
      if decide (String.length b = 0) then mret (empty_state, None)
      else
        match Unmarshal_cdpEndpointState b with
        | None => mret (empty_state, Some ErrJSON)
        | Some state =>
            if cdpEndpointState.Entries state is None
            then mret (empty_state, None)
            else mret (state, None)
        end
  end.

Definition write (s : t) (state : cdpEndpointState.t) : IO (option error) :=
  let data := Marshal_cdpEndpointState state in
  let tmp := path s +:+ ".tmp" in
  err ← os.WriteFile tmp data;
  match err with
  | Some e => mret (Some e)
  | None => os.Rename tmp (path s)
  end.

Definition Get (s : option t) (host : string) : IO (string * bool * option error) :=
  match s with
  | None => mret ("", false, None)
  | Some s =>
      '(state, err) ← read s;
      match err with
      | Some e => mret ("", false, Some e)
      | None =>
          (* val, ok := state.Entries[host]; a nil map has no entry *)
          match cdpEndpointState.Entries state ≫= (.!! host) with
          | Some val => mret (val, true, None)
          | None => mret ("", false, None)
          end
      end
  end.

(** An assignment to an entry of a nil map panics; [read] never returns
    one, see [Remember_never_panics]. *)
Definition Remember (s : option t) (host wsURL : string) : IO (option error) :=
  match s with
  | None => mret None
  | Some s =>
      if decide (host = "" ∨ wsURL = "") then mret None else
      '(state, err) ← read s;
      match err with
      | Some e => mret (Some e)
      | None =>
          match cdpEndpointState.Entries state with
          | None => mret (Some (ErrNew "panic: assignment to entry in nil map"))
          | Some entries =>
              write s (cdpEndpointState.mk (Some (<[host := wsURL]> entries)))
          end
      end
  end.

End with_json.
End cdpEndpointStore.

Section resolve.
Context {json : JSON} {neturl : NetURL}.

(** The address probed: [fmt.Sprintf("%s://%s/json/version", httpScheme, host)]. *)
Definition json_version_endpoint (scheme host : string) : string :=
  let httpScheme :=
    if decide (scheme = "https" ∨ scheme = "wss") then "https" else "http" in
  httpScheme +:+ "://" +:+ host +:+ "/json/version".

Definition fetchWebsocketDebuggerURL (scheme host : string)
  : IO (string * option error) :=
  let endpoint := json_version_endpoint scheme host in
  resp ← http_Get endpoint;
  match resp with
  | NoResponse => mret ("", Some (ErrRequest endpoint))
  | Response status body =>
      if decide (status ≠ 200) then mret ("", Some (ErrStatus status))
      else
        match Decode_version body with
        | None => mret ("", Some ErrJSON)
        | Some ws =>
            if decide (ws = "")
            then mret ("", Some (ErrNew "empty webSocketDebuggerUrl"))
            else mret (ws, None)
        end
  end.

(** The first part of [resolveCDPEndpoint], up to the defaulting of the
    port: the normalised URL and the host key, or the error returned. *)
Definition resolveCDPEndpoint_normalize (raw : string) : error + (url.URL * string) :=
  let norm := if decide (raw = "") then "ws://127.0.0.1:9222" else raw in
  let norm := if strings_Contains norm "://" then norm else "ws://" +:+ norm in
  match url_Parse norm with
  | inl e => inl (ErrWrap "parse cdp url" e)
  | inr u =>
      if decide (url.Host u = "")
      then inl (ErrNew ("missing host in cdp url: " +:+ raw))
      else
        let host := url.Host u in
        if net_SplitHostPort host is None then
          let host := net_JoinHostPort host "9222" in
          inr (url.set_Host host u, host)
        else inr (u, host)
  end.

Definition resolveCDPEndpoint (raw : string) (store : option cdpEndpointStore.t)
  : IO (string * string * option error) :=
  match resolveCDPEndpoint_normalize raw with
  | inl e => mret ("", "", Some e)
  | inr (u, host) =>
      if strings_Contains (url.Path u) "/devtools/browser/"
      then mret (URL_String u, host, None)
      else
        hit ← match store with
              | None => mret None
              | Some _ =>
                  '(cached, ok, err) ← cdpEndpointStore.Get store host;
                  match err, ok with
                  | None, true => mret (Some cached)
                  | Some e, _ =>
                      _ ← slog_Warn "read cached cdp endpoint" e; mret None
                  | None, false => mret None
                  end
              end;
        match hit with
        | Some cached => mret (cached, host, None)
        | None =>
            '(wsURL, err) ← fetchWebsocketDebuggerURL (url.Scheme u) host;
            match err with
            | Some e => mret (URL_String u, host, Some e)
            | None =>
                _ ← match store with
                    | None => mret tt
                    | Some _ =>
                        err ← cdpEndpointStore.Remember store host wsURL;
                        if err is Some e
                        then slog_Warn "remember cdp endpoint" e
                        else mret tt
                    end;
                mret (wsURL, host, None)
            end
        end
  end.

End resolve.

(** ** The session registry *)

Module Sessions.

(** [type SessionId uuid.UUID]: sixteen bytes, here their value. *)
Abbreviation SessionId := N (only parsing).

(** Addresses of [Session] objects and of channels; [None] is nil. *)
Abbreviation loc := positive (only parsing).

Inductive chan_state : Type := Open | Closed.

(** [type Session struct { sync.Mutex; id SessionId; creq chan mcp.Request;
    createdAt time.Time }] *)
Record Session : Type := mkSession {
  id : SessionId;
  creq : option loc;
  createdAt : N;
}.

(** The memory of the process: the [Session] objects, the channels, and
    the map [s] of the one [Sessions] registry.  The registry's mutex makes
    each method atomic; a method is one transition of the memory. *)
Record Mem : Type := mkMem {
  objects : gmap loc Session;
  chans : gmap loc chan_state;
  s : gmap SessionId loc;
}.

(** The outcome of a method: it returns, or the process panics. *)
Inductive outcome (A : Type) : Type :=
  | Returns (a : A) (m : Mem)
  | Panics.
Arguments Returns {A} a m.
Arguments Panics {A}.

(** [NewSessions]: an empty map. *)
Definition NewSessions (m : Mem) : Mem :=
  mkMem (objects m) (chans m) ∅.

(** [NewSession], given the UUID drawn and the time read: a fresh
    unbuffered channel and a fresh object. *)
Definition NewSession (uuid : SessionId) (now : N) (m : Mem) : loc * Mem :=
  let c := fresh (dom (chans m)) in
  let p := fresh (dom (objects m)) in
  (p, mkMem (<[p := mkSession uuid (Some c) now]> (objects m))
            (<[c := Open]> (chans m)) (s m)).

(** [ss.s[s.id] = s]: reading [s.id] through a nil or dangling pointer
    panics. *)
Definition Add (sp : option loc) (m : Mem) : outcome unit :=
  match sp ≫= (objects m !!.) with
  | None => Panics
  | Some obj =>
      match sp with
      | Some p => Returns tt (mkMem (objects m) (chans m) (<[id obj := p]> (s m)))
      | None => Panics
      end
  end.

(** [s, ok := ss.s[id]] *)
Definition Get (i : SessionId) (m : Mem) : outcome (option loc * bool) :=
  match s m !! i with
  | Some p => Returns (Some p, true) m
  | None => Returns (None, false) m
  end.

(** [delete(ss.s, id)] *)
Definition Remove (i : SessionId) (m : Mem) : outcome unit :=
  Returns tt (mkMem (objects m) (chans m) (delete i (s m))).

(** [Session.Close], that is [close(s.creq)]: closing a nil or an already
    closed channel panics. *)
Definition Session_Close (sp : option loc) (m : Mem) : outcome unit :=
  match sp ≫= (objects m !!.) with
  | None => Panics
  | Some obj =>
      match creq obj with
      | None => Panics
      | Some c =>
          match chans m !! c with
          | Some Open =>
              Returns tt (mkMem (objects m) (<[c := Closed]> (chans m)) (s m))
          | _ => Panics
          end
      end
  end.

(** The state of the request channel of the session at [p]. *)
Definition channel_of (p : loc) (m : Mem) : option chan_state :=
  match objects m !! p with
  | Some obj => match creq obj with Some c => chans m !! c | None => None end
  | None => None
  end.

End Sessions.

(** ** The write sequence of [write], step by step

    [os.WriteFile] opens its file with [O_WRONLY|O_CREATE|O_TRUNC], writes
    the data in one or several [write] calls and closes it; [os.Rename] is
    one [rename] call, which the file system performs atomically.  A process
    can be killed between any two of these calls. *)

Module AtomicWrite.

Inductive phase : Type :=
  | Start                  (* nothing done yet *)
  | Writing (n : nat)      (* the temporary file is open, [n] bytes written *)
  | Written                (* the temporary file is closed *)
  | Renamed.               (* [write] has returned nil *)

Definition tmp (path : string) : string := path +:+ ".tmp".

Definition prefix (n : nat) (data : string) : string :=
  String.substring 0 n data.

Inductive step (path data : string)
  : phase * gmap string string → phase * gmap string string → Prop :=
  | step_open fs :
      step path data (Start, fs) (Writing 0, <[tmp path := ""]> fs)
  | step_write n k fs :
      (0 < k)%nat → (n + k ≤ String.length data)%nat →
      step path data (Writing n, fs)
           (Writing (n + k), <[tmp path := prefix (n + k) data]> fs)
  | step_close fs :
      step path data (Writing (String.length data), fs) (Written, fs)
  | step_rename fs b :
      fs !! tmp path = Some b →
      step path data (Written, fs)
           (Renamed, <[path := b]> (delete (tmp path) fs)).

(** What the files are in each phase of the sequence. *)
Definition files_in (path data : string) (fs0 : gmap string string)
    (st : phase * gmap string string) : Prop :=
  match st.1 with
  | Start => st.2 = fs0
  | Writing n =>
      (n ≤ String.length data)%nat ∧ st.2 = <[tmp path := prefix n data]> fs0
  | Written => st.2 = <[tmp path := data]> fs0
  | Renamed => st.2 = <[path := data]> (delete (tmp path) fs0)
  end.

(** The states a process killed during [write] can leave behind. *)
Definition reachable (path data : string) (fs0 : gmap string string)
  (st : phase * gmap string string) : Prop :=
  rtc (step path data) (Start, fs0) st.

End AtomicWrite.

(** ** Reference implementations of the library interfaces

    A compact JSON printer and reader for the two persisted shapes, and a
    URL reader for addresses of the shape [scheme://host/path].  On text
    that [encoding/json] does not escape, the printer produces what
    [json.Marshal] produces.  They instantiate the interfaces in the
    examples. *)

Module Reference.

Definition dquote : ascii := "034"%char.
Definition backslash : ascii := "092"%char.

Fixpoint escape (s : string) : string :=
  match s with
  | "" => ""
  | String c s' =>
      if decide (c = dquote ∨ c = backslash)
      then String backslash (String c (escape s'))
      else String c (escape s')
  end.

Definition quote (s : string) : string :=
  String dquote (escape s +:+ String dquote "").

(** The text after [lit], when [s] starts with [lit]. *)
Fixpoint expect (lit s : string) : option string :=
  match lit, s with
  | "", _ => Some s
  | String p lit', String c s' =>
      if decide (c = p) then expect lit' s' else None
  | String _ _, "" => None
  end.

(** Reads a string literal after its opening quote. *)
Fixpoint unquote (s : string) : option (string * string) :=
  match s with
  | "" => None
  | String c s' =>
      if decide (c = dquote) then Some ("", s')
      else if decide (c = backslash) then
        match s' with
        | "" => None
        | String d s'' =>
            '(r, rest) ← unquote s''; Some (String d r, rest)
        end
      else '(r, rest) ← unquote s'; Some (String c r, rest)
  end.

Definition read_string (s : string) : option (string * string) :=
  expect (String dquote "") s ≫= unquote.

Fixpoint join (sep : string) (l : list string) : string :=
  match l with
  | [] => ""
  | [x] => x
  | x :: l' => x +:+ sep +:+ join sep l'
  end.

(** Reads [item (, item)* close]. *)
Fixpoint read_items {A} (item : string → option (A * string)) (close : string)
    (fuel : nat) (s : string) : option (list A * string) :=
  match fuel with
  | 0 => None
  | S fuel' =>
      '(x, r) ← item s;
      match expect close r with
      | Some rest => Some ([x], rest)
      | None =>
          r' ← expect "," r;
          '(xs, rest) ← read_items item close fuel' r';
          Some (x :: xs, rest)
      end
  end.

Definition read_list {A} (item : string → option (A * string))
    (open close : string) (s : string) : option (list A * string) :=
  r ← expect open s;
  match expect close r with
  | Some rest => Some ([], rest)
  | None => read_items item close (String.length r) r
  end.

Definition read_pair (s : string) : option ((string * string) * string) :=
  '(k, r) ← read_string s;
  r' ← expect ":" r;
  '(v, rest) ← read_string r';
  Some ((k, v), rest).

Definition idle_key : string := quote "idle" +:+ ":".
Definition entries_key : string := quote "entries" +:+ ":".
Definition ws_key : string := quote "webSocketDebuggerUrl" +:+ ":".

Definition marshal_targetState (st : targetState.t) : string :=
  "{" +:+ idle_key +:+ "[" +:+ join "," (quote <$> targetState.Idle st) +:+ "]}".

Definition unmarshal_targetState (b : string) : option targetState.t :=
  if decide (b = "{}") then Some (targetState.mk []) else
  r ← expect ("{" +:+ idle_key) b;
  if decide (r = "null}") then Some (targetState.mk []) else
  '(l, rest) ← read_list read_string "[" "]" r;
  if decide (rest = "}") then Some (targetState.mk l) else None.

Definition marshal_cdpEndpointState (st : cdpEndpointState.t) : string :=
  match cdpEndpointState.Entries st with
  | None => "{" +:+ entries_key +:+ "null}"
  | Some m =>
      "{" +:+ entries_key +:+ "{" +:+
      join "," ((λ kv, quote kv.1 +:+ ":" +:+ quote kv.2)
                  <$> merge_sort (λ a b, String.le a.1 b.1) (map_to_list m))
      +:+ "}}"
  end.

Definition unmarshal_cdpEndpointState (b : string) : option cdpEndpointState.t :=
  if decide (b = "{}") then Some (cdpEndpointState.mk (Some ∅)) else
  r ← expect ("{" +:+ entries_key) b;
  if decide (r = "null}") then Some (cdpEndpointState.mk None) else
  '(l, rest) ← read_list read_pair "{" "}" r;
  if decide (rest = "}")
  then Some (cdpEndpointState.mk (Some (list_to_map (reverse l))))
  else None.

Definition decode_version (body : string) : option string :=
  if decide (body = "{}") then Some "" else
  r ← expect ("{" +:+ ws_key) body;
  '(ws, rest) ← read_string r;
  if decide (rest = "}") then Some ws else None.

#[export] Instance json : JSON := {|
  Marshal_targetState := marshal_targetState;
  Unmarshal_targetState := unmarshal_targetState;
  Marshal_cdpEndpointState := marshal_cdpEndpointState;
  Unmarshal_cdpEndpointState := unmarshal_cdpEndpointState;
  Decode_version := decode_version;
|}.

(** The position of the first occurrence of [sep], as the text before and
    after it. *)
Fixpoint cut (sep : string) (s : string) : option (string * string) :=
  match expect sep s with
  | Some rest => Some ("", rest)
  | None =>
      match s with
      | "" => None
      | String c s' => '(a, b) ← cut sep s'; Some (String c a, b)
      end
  end.

Definition parse (raw : string) : error + url.URL :=
  match cut "://" raw with
  | None => inl (ErrURL raw)
  | Some (scheme, rest) =>
      let '(host, path) :=
        match cut "/" rest with
        | Some (h, p) => (h, "/" +:+ p)
        | None => (rest, "")
        end in
      inr (url.mk scheme "" None host path "" false "" "" "")
  end.

Definition to_string (u : url.URL) : string :=
  url.Scheme u +:+ "://" +:+ url.Host u +:+ url.Path u.

#[export] Instance net_url : NetURL := {|
  url_Parse := parse;
  URL_String := to_string;
|}.

End Reference.
(** ** Scenarios and observations used by the statements *)

Module pool.
Section with_json.
Context {json : JSON}.

(** [x] is one of the identifiers that [compact] keeps of [l]: the trimmed
    form of an identifier of [l], and not empty. *)
Definition kept (l : list string) (x : string) : Prop :=
  x ≠ "" ∧ ∃ y, y ∈ l ∧ x = strings_TrimSpace y.

(** The operating system performs the operations on the three files of
    the pool at [p]. *)
Definition healthy (p : string) (w : World) : Prop :=
  (p ∉ faulty w) ∧ ((p +:+ ".tmp") ∉ faulty w) ∧ ((p +:+ ".lock") ∉ faulty w).

(** The idle sequence persisted at [p]: what the state file holds, before
    any normalisation; the empty sequence when there is no file. *)
Inductive persisted (p : string) (w : World) : list string → Prop :=
  | persisted_absent :
      files w !! p = None → persisted p w []
  | persisted_file b l :
      files w !! p = Some b →
      Unmarshal_targetState b = Some (targetState.mk l) →
      persisted p w l.

(** The state is written as it would be read back. *)
Definition round_trips (state : targetState.t) : Prop :=
  Unmarshal_targetState (Marshal_targetState state) = Some state.


End with_json.
End pool.

Module cache.
Section with_json.
Context {json : JSON}.

(** The state is written as a non-empty text that is read back as it
    was. *)
Definition round_trips (state : cdpEndpointState.t) : Prop :=
  String.length (Marshal_cdpEndpointState state) ≠ 0 ∧
  Unmarshal_cdpEndpointState (Marshal_cdpEndpointState state) = Some state.

(** The cache is read without error and holds the entries [m]. *)
Definition holds (s : cdpEndpointStore.t) (w : World)
    (m : gmap string string) : Prop :=
  (cdpEndpointStore.read s w).1 = (cdpEndpointState.mk (Some m), None).

(** The lookup that [resolveCDPEndpoint] makes finds an endpoint. *)
Definition hit (store : option cdpEndpointStore.t) (host : string)
    (w : World) : Prop :=
  ∃ cached, (cdpEndpointStore.Get store host w).1 = (cached, true, None).

(** The probe of [/json/version] fails: no response, a status other than
    200, a body that is not JSON, or no [webSocketDebuggerUrl] in it. *)
Definition probe_fails (scheme host : string) (w : World) : Prop :=
  match http w (json_version_endpoint scheme host) with
  | NoResponse => True
  | Response status body =>
      status ≠ 200 ∨ Decode_version body = None ∨ Decode_version body = Some ""
  end.

End with_json.
End cache.
(** ** Concrete worlds for the examples *)

Module Examples.

(** A machine on which every operation succeeds, with the given files and
    a network that does not answer. *)
Definition world (fs : gmap string string) : World :=
  mkWorld fs ∅ ∅ (λ _, NoResponse) [].

Definition tabs : string := "tabs.json".

(** The state file holding [{"idle": l}]. *)
Definition pool_file (l : list string) : gmap string string :=
  {[ tabs := Reference.marshal_targetState (targetState.mk l) ]}.

End Examples.

(** ** Further definitions: pool keys, scenarios and example worlds *)

(** ** The file name of a pool *)

(** The replacer of [sanitizeKey],
    [strings.NewReplacer(":", "_", "/", "_", "\\", "_", " ", "_")]: every
    old and new string is one byte, so [Replace] maps the bytes of its
    argument one by one. *)
Definition hostile (c : ascii) : bool :=
  bool_decide (c = ":" ∨ c = "/" ∨ c = "\" ∨ c = " ")%char.

Definition replace_byte (c : ascii) : ascii :=
  if hostile c then "_"%char else c.

Fixpoint Replacer_Replace (s : string) : string :=
  match s with
  | "" => ""
  | String c s' => String (replace_byte c) (Replacer_Replace s')
  end.

Definition sanitizeKey (key : string) : string :=
  let key := strings_TrimSpace key in
  if decide (key = "") then "default" else
  let key := Replacer_Replace key in
  if decide (40 < String.length key)%nat then String.substring 0 40 key
  else key.

(** The bytes of a string. *)
Definition bytes_of (s : string) : list ascii := list_ascii_of_string s.

(** ** More scenarios and observations *)

Module pool_more.
Section with_json.
Context {json : JSON}.

(** The state file at [p] is there and does not decode. *)
Definition corrupt (p : string) (w : World) : Prop :=
  ∃ b, files w !! p = Some b ∧ Unmarshal_targetState b = None.

(** [n] successive [Checkout] calls. *)
Fixpoint Checkouts (s : option targetStore.t) (n : nat)
  : IO (list (string * option error)) :=
  match n with
  | 0 => mret []
  | S n' =>
      r ← targetStore.Checkout s;
      rs ← Checkouts s n';
      mret (r :: rs)
  end.

End with_json.

(** The operations that [read] and [write] of the pool at [p] make. *)
Definition state_file_op (p : string) (e : event) : bool :=
  match e with
  | EvReadFile q => bool_decide (q = p)
  | EvWriteFile q _ => bool_decide (q = p +:+ ".tmp")
  | EvRename old new => bool_decide (old = p +:+ ".tmp" ∧ new = p)
  | _ => false
  end.

(** From [w] to [w'] the lock of the pool at [p] was refused, or taken,
    held over operations on the state file only, and released. *)
Definition locked_section (p : string) (w w' : World) : Prop :=
  let lk := p +:+ ".lock" in
  (lk ∈ faulty w ∧ trace w' = EvLock lk :: trace w ∧ held w' = held w) ∨
  ((lk ∉ faulty w) ∧ held w' = held w ∖ {[lk]} ∧
   ∃ ops, trace w' = EvUnlock lk :: ops ++ EvLock lk :: trace w ∧
          forallb (state_file_op p) ops = true).
End pool_more.

Module cache_more.
Section with_json.
Context {json : JSON}.

(** The probe of [/json/version] answers with the endpoint [ws]: status
    200 and a body whose [webSocketDebuggerUrl] is [ws], not empty. *)
Definition probe_answers (scheme host : string) (w : World) (ws : string) : Prop :=
  ∃ body, http w (json_version_endpoint scheme host) = Response 200 body ∧
          Decode_version body = Some ws ∧ ws ≠ "".

(** The cache file is there, is not empty and does not decode. *)
Definition corrupt (s : cdpEndpointStore.t) (w : World) : Prop :=
  ∃ b, files w !! cdpEndpointStore.path s = Some b ∧
       String.length b ≠ 0 ∧ Unmarshal_cdpEndpointState b = None.

(** What [Get] returns for [host] from the entries [m]. *)
Definition found (m : gmap string string) (host : string)
  : string * bool * option error :=
  match m !! host with
  | Some val => (val, true, None)
  | None => ("", false, None)
  end.

End with_json.
End cache_more.

(** ** Concrete worlds with a browser and an endpoint cache *)

Module Browser.

Definition cache : string := "cdp-endpoints.json".

(** The cache file holding the entries [m]. *)
Definition cache_file (m : gmap string string) : gmap string string :=
  {[ cache := Reference.marshal_cdpEndpointState (cdpEndpointState.mk (Some m)) ]}.

(** The body of [/json/version] of a browser whose endpoint is [ws]. *)
Definition version_body (ws : string) : string :=
  "{" +:+ Reference.ws_key +:+ Reference.quote ws +:+ "}".

(** A machine on which every operation succeeds, with the given files and
    a browser that answers at [127.0.0.1:9222] with the endpoint [ws]. *)
Definition answering (ws : string) (fs : gmap string string) : World :=
  mkWorld fs ∅ ∅
    (λ endpoint, if decide (endpoint = "http://127.0.0.1:9222/json/version")
                 then Response 200 (version_body ws) else NoResponse)
    [].

Definition browser_ws : string := "ws://127.0.0.1:9222/devtools/browser/abc".

End Browser.

(** * Theorems *)

Set Warnings "-clear-no-such-hyp".

(** ** The library models on examples *)

Example TrimSpace_ascii : strings_TrimSpace "  t1 " = "t1".
Proof. reflexivity. Qed.

Example TrimSpace_inner : strings_TrimSpace " tab 1 " = "tab 1".
Proof. reflexivity. Qed.

Example TrimSpace_blank :
  strings_TrimSpace (String "009" (String "032" (String "010" ""))) = "".
Proof. reflexivity. Qed.

(** U+00A0 before, U+2003 after. *)
Example TrimSpace_unicode :
  strings_TrimSpace
    (String "194" (String "160" ("t1" +:+
       String "226" (String "128" (String "131" "")))))
  = "t1".
Proof. reflexivity. Qed.

Example sort_Strings_bytewise :
  sort_Strings ["t2"; "t10"; "T3"; "t1"] = ["T3"; "t1"; "t10"; "t2"].
Proof. reflexivity. Qed.

Example compact_example :
  targetState.compact (targetState.mk ["t2"; " t1"; "t1"; ""; "  "])
  = targetState.mk ["t1"; "t2"].
Proof. vm_compute; reflexivity. Qed.

Example Contains_scheme :
  strings_Contains "ws://127.0.0.1" "://" = true ∧
  strings_Contains "127.0.0.1:9222" "://" = false.
Proof. split; reflexivity. Qed.

Example SplitHostPort_examples :
  net_SplitHostPort "127.0.0.1:9222" = Some ("127.0.0.1", "9222") ∧
  net_SplitHostPort "127.0.0.1" = None ∧
  net_SplitHostPort "[::1]:9222" = Some ("::1", "9222") ∧
  net_SplitHostPort "[::1]" = None ∧
  net_SplitHostPort "::1" = None.
Proof. split_and!; reflexivity. Qed.

Example JoinHostPort_examples :
  net_JoinHostPort "127.0.0.1" "9222" = "127.0.0.1:9222" ∧
  net_JoinHostPort "::1" "9222" = "[::1]:9222".
Proof. split; reflexivity. Qed.

(** ** Properties of the library models *)

Section trim_facts.
Variable sp1 : ascii → bool.
Variable sp2 : ascii → ascii → bool.
Variable sp3 : ascii → ascii → ascii → bool.

Abbreviation lead := (lead sp1 sp2 sp3).
Abbreviation trim_lead := (trim_lead sp1 sp2 sp3).

Lemma trim_lead_unfold l :
  trim_lead l = match lead l with Some r => trim_lead r | None => l end.
Proof.
  destruct l as [|c1 [|c2 [|c3 l]]]; simpl; try done;
    repeat (case_match; try done).
Qed.

Lemma lead_length l r : lead l = Some r → length r < length l.
Proof.
  destruct l as [|c1 [|c2 [|c3 l]]]; simpl; intros;
    repeat case_match; simplify_eq/=; lia.
Qed.

Lemma lead_suffix l r : lead l = Some r → ∃ k, l = k ++ r.
Proof.
  destruct l as [|c1 [|c2 [|c3 l]]]; simpl; intros;
    repeat case_match; simplify_eq/=;
    first [ by eexists [_] | by eexists [_; _] | by eexists [_; _; _] ].
Qed.

Lemma lead_app l r q : lead l = Some r → lead (l ++ q) = Some (r ++ q).
Proof.
  destruct l as [|c1 [|c2 [|c3 l]]]; simpl; intros;
    repeat case_match; simplify_eq/=; done.
Qed.

Lemma trim_lead_spec l :
  lead (trim_lead l) = None ∧ ∃ k, l = k ++ trim_lead l.
Proof.
  remember (length l) as n eqn:Hn. revert l Hn.
  induction (lt_wf n) as [n _ IH]. intros l ->.
  rewrite trim_lead_unfold. destruct (lead l) as [r|] eqn:Hl.
  - destruct (IH (length r) (lead_length _ _ Hl) r eq_refl) as [Hnone [k Hk]].
    split; [done|]. destruct (lead_suffix _ _ Hl) as [k' ->].
    exists (k' ++ k). by rewrite <-app_assoc, <-Hk.
  - split; [done|]. by exists [].
Qed.

Lemma trim_lead_fixed l : lead l = None → trim_lead l = l.
Proof. intros Hl. by rewrite trim_lead_unfold, Hl. Qed.

Lemma trim_lead_idemp l : trim_lead (trim_lead l) = trim_lead l.
Proof. apply trim_lead_fixed, trim_lead_spec. Qed.

Lemma lead_prefix_None p q : lead (p ++ q) = None → lead p = None.
Proof.
  intros Hpq. destruct (lead p) as [r|] eqn:Hp; [|done].
  by rewrite (lead_app _ _ q Hp) in Hpq.
Qed.
End trim_facts.

Lemma trimRight_idemp l : trimRight (trimRight l) = trimRight l.
Proof. unfold trimRight. by rewrite rev_involutive, trim_lead_idemp. Qed.

Lemma trimRight_prefix l : ∃ k, l = trimRight l ++ k.
Proof.
  unfold trimRight.
  destruct (trim_lead_spec asciiSpace (λ c2 c1, space2 c1 c2)
              (λ c3 c2 c1, space3 c1 c2 c3) (rev l)) as [_ [k Hk]].
  exists (rev k). rewrite <-rev_app_distr, <-Hk. by rewrite rev_involutive.
Qed.

Lemma trimLeft_trimRight_trimLeft l :
  trimLeft (trimRight (trimLeft l)) = trimRight (trimLeft l).
Proof.
  unfold trimLeft at 1. apply trim_lead_fixed.
  destruct (trimRight_prefix (trimLeft l)) as [k Hk].
  apply lead_prefix_None with k. rewrite <-Hk.
  apply trim_lead_spec.
Qed.

Lemma TrimSpace_idemp s :
  strings_TrimSpace (strings_TrimSpace s) = strings_TrimSpace s.
Proof.
  unfold strings_TrimSpace. rewrite list_ascii_of_string_of_list_ascii.
  by rewrite trimLeft_trimRight_trimLeft, trimRight_idemp.
Qed.

Lemma sort_Strings_perm l : sort_Strings l ≡ₚ l.
Proof. apply merge_sort_Permutation. Qed.

Lemma sort_Strings_sorted l : Sorted String.le (sort_Strings l).
Proof. apply (Sorted_merge_sort String.le). Qed.

(** A duplicate-free sorted list is determined by its elements. *)
Lemma sorted_nodup_unique (l1 l2 : list string) :
  Sorted String.le l1 → Sorted String.le l2 → NoDup l1 → NoDup l2 →
  (∀ x, x ∈ l1 ↔ x ∈ l2) → l1 = l2.
Proof.
  intros Hs1 Hs2 Hn1 Hn2 Hel.
  apply (Sorted_unique String.le); [done..|].
  by apply NoDup_Permutation.
Qed.

(** ** The normal form computed by [compact] *)

Module compact_facts.
Import targetState pool.

Lemma compact_step_spec set idle y :
  (∀ x, x ∈ set ↔ x ∈ idle) → NoDup idle →
  let '(set', idle') := compact_step (set, idle) y in
  (∀ x, x ∈ set' ↔ x ∈ idle') ∧ NoDup idle' ∧
  ∀ x, x ∈ idle' ↔ x ∈ idle ∨ (x ≠ "" ∧ x = strings_TrimSpace y).
Proof.
  intros Hset Hnd. unfold compact_step.
  destruct (decide (strings_TrimSpace y = "")) as [Hy|Hy].
  { split_and!; [done..|]. intros x. split; [by left|].
    intros [?|[? ->]]; done. }
  destruct (decide (strings_TrimSpace y ∈ set)) as [Hin|Hin].
  { split_and!; [done..|]. intros x. split; [by left|].
    intros [?|[? ->]]; [done|]. by apply Hset. }
  split_and!.
  - intros x. rewrite elem_of_app, elem_of_union, Hset. set_solver.
  - apply NoDup_app. split_and!; [done| |apply NoDup_singleton].
    intros x Hx ->%list_elem_of_singleton. by apply Hin, Hset.
  - intros x. rewrite elem_of_app, list_elem_of_singleton.
    split; [intros [?| ->]; eauto|]. intros [?|[? ->]]; eauto.
Qed.

Lemma compact_loop l set idle :
  (∀ x, x ∈ set ↔ x ∈ idle) → NoDup idle →
  let '(set', idle') := foldl compact_step (set, idle) l in
  (∀ x, x ∈ set' ↔ x ∈ idle') ∧ NoDup idle' ∧
  ∀ x, x ∈ idle' ↔ x ∈ idle ∨ kept l x.
Proof.
  revert set idle. induction l as [|y l IH]; intros set idle Hset Hnd.
  { simpl. split_and!; [done..|]. intros x. split; [by left|].
    intros [?|(_ & z & Hz & _)]; [done|]. by apply elem_of_nil in Hz. }
  change (foldl compact_step (set, idle) (y :: l))
    with (foldl compact_step (compact_step (set, idle) y) l).
  pose proof (compact_step_spec set idle y Hset Hnd) as Hstep.
  destruct (compact_step (set, idle) y) as [set1 idle1].
  destruct Hstep as (Hset1 & Hnd1 & Hel1).
  specialize (IH set1 idle1 Hset1 Hnd1).
  destruct (foldl compact_step (set1, idle1) l) as [set' idle'].
  destruct IH as (? & ? & IH). split_and!; [done..|].
  intros x. rewrite IH, Hel1. unfold kept. split.
  - intros [[?|[? ->]]|(? & z & ? & ->)]; [by left|right..].
    + split; [done|]. exists y. split; [left|done].
    + split; [done|]. exists z. split; [by right|done].
  - intros [?|(Hx & z & [->|?]%elem_of_cons & ->)];
      [by left; left|by left; right|].
    right. split; [done|]. by exists z.
Qed.

Lemma compact_Idle l :
  Idle (compact (mk l)) = sort_Strings (foldl compact_step (∅, []) l).2.
Proof.
  unfold compact. simpl. destruct l as [|y l]; [done|].
  rewrite decide_False by done.
  by destruct (foldl compact_step (∅, []) (y :: l)).
Qed.

Lemma compact_spec l :
  Sorted String.le (Idle (compact (mk l))) ∧
  NoDup (Idle (compact (mk l))) ∧
  ∀ x, x ∈ Idle (compact (mk l)) ↔ kept l x.
Proof.
  rewrite compact_Idle.
  pose proof (compact_loop l ∅ []) as Hloop.
  destruct (foldl compact_step (∅, []) l) as [set idle]. simpl.
  destruct Hloop as (_ & Hnd & Hel); [set_solver|constructor|].
  split_and!.
  - apply sort_Strings_sorted.
  - by rewrite sort_Strings_perm.
  - intros x. rewrite sort_Strings_perm, Hel. set_solver.
Qed.

Lemma compact_unique l l' :
  Sorted String.le l' → NoDup l' → (∀ x, x ∈ l' ↔ kept l x) →
  Idle (compact (mk l)) = l'.
Proof.
  intros Hs Hn Hel. destruct (compact_spec l) as (Hs' & Hn' & Hel').
  apply sorted_nodup_unique; [done..|]. intros x. by rewrite Hel, Hel'.
Qed.

Lemma kept_compact_app l m x :
  kept (Idle (compact (mk l)) ++ m) x ↔ kept (l ++ m) x.
Proof.
  destruct (compact_spec l) as (_ & _ & Hel). unfold kept in *.
  split; intros (Hx & y & Hy & ->); (split; [done|]).
  - apply elem_of_app in Hy as [Hy|Hy].
    + apply Hel in Hy as (_ & z & Hz & ->).
      exists z. rewrite TrimSpace_idemp. set_solver.
    + exists y. set_solver.
  - apply elem_of_app in Hy as [Hy|Hy].
    + exists (strings_TrimSpace y). rewrite TrimSpace_idemp.
      split; [|done]. apply elem_of_app. left. apply Hel. eauto.
    + exists y. set_solver.
Qed.

Lemma compact_compact_app l m :
  compact (mk (Idle (compact (mk l)) ++ m)) = compact (mk (l ++ m)).
Proof.
  destruct (compact_spec (l ++ m)) as (Hs & Hn & Hel).
  cut (Idle (compact (mk (Idle (compact (mk l)) ++ m)))
       = Idle (compact (mk (l ++ m)))).
  { destruct (compact _), (compact _). simpl. by intros ->. }
  apply compact_unique; [done..|].
  intros x. by rewrite Hel, kept_compact_app.
Qed.

Lemma compact_Idle_compact l :
  compact (mk (Idle (compact (mk l)))) = compact (mk l).
Proof.
  pose proof (compact_compact_app l []) as Hc. by rewrite !app_nil_r in Hc.
Qed.

Lemma compact_idemp l : compact (compact (mk l)) = compact (mk l).
Proof.
  rewrite <-(compact_Idle_compact l) at 2. by destruct (compact (mk l)).
Qed.

(** Checking in an identifier that is already idle changes nothing. *)
Lemma compact_app_elem l id :
  id ∈ Idle (compact (mk l)) →
  compact (mk (l ++ [id])) = compact (mk l).
Proof.
  intros Hid. destruct (compact_spec l) as (Hs & Hn & Hel).
  cut (Idle (compact (mk (l ++ [id]))) = Idle (compact (mk l))).
  { destruct (compact _), (compact _). simpl. by intros ->. }
  apply compact_unique; [done..|]. intros x. rewrite Hel. unfold kept.
  apply Hel in Hid as (Hne & z & Hz & ->).
  split; intros (Hx & y & Hy & ->); (split; [done|]).
  - exists y. set_solver.
  - apply elem_of_app in Hy as [Hy| ->%list_elem_of_singleton]; [eauto|].
    exists z. by rewrite TrimSpace_idemp.
Qed.

Lemma compact_app_empty l : compact (mk (l ++ [""])) = compact (mk l).
Proof.
  destruct (compact_spec l) as (Hs & Hn & Hel).
  cut (Idle (compact (mk (l ++ [""]))) = Idle (compact (mk l))).
  { destruct (compact _), (compact _). simpl. by intros ->. }
  apply compact_unique; [done..|]. intros x. rewrite Hel. unfold kept.
  split; intros (Hx & y & Hy & ->); (split; [done|]).
  - exists y. set_solver.
  - apply elem_of_app in Hy as [Hy| ->%list_elem_of_singleton]; [eauto|].
    done.
Qed.
End compact_facts.

(** ** Running the system calls *)

Lemma IO_bind_run {A B} (m : IO A) (k : A → IO B) w a w' :
  m w = (a, w') → (m ≫= k) w = k a w'.
Proof. unfold mbind, IO_bind. by intros ->. Qed.

(** Runs the first call of a sequence, given a tactic that finds its run. *)
Ltac io_bind tac := erewrite IO_bind_run by tac; cbv beta iota.

(** Unfolds the sequencing of a computation made of a few system calls. *)
Ltac io_unfold :=
  unfold mbind, IO_bind, mret, IO_ret, emit, get_world, modify; simpl.

Lemma append_ne (s t : string) : t ≠ "" → s +:+ t ≠ s.
Proof.
  intros Ht Heq. apply Ht. clear Ht.
  induction s as [|c s IH]; [done|]. apply IH. by injection Heq.
Qed.

Section os_facts.
Implicit Types (w : World) (p : string).

Lemma ReadFile_run p w :
  p ∉ faulty w →
  os.ReadFile p w =
    (match files w !! p with
     | Some b => (b, None)
     | None => ("", Some ErrNotExist)
     end, set_trace (cons (EvReadFile p)) w).
Proof.
  intros Hp. unfold os.ReadFile. io_unfold.
  rewrite decide_False by done. by destruct (files w !! p).
Qed.

Lemma WriteFile_run p data w :
  p ∉ faulty w →
  os.WriteFile p data w =
    (None, set_files (insert p data) (set_trace (cons (EvWriteFile p data)) w)).
Proof.
  intros Hp. unfold os.WriteFile. io_unfold.
  by rewrite decide_False by done.
Qed.

Lemma Rename_run a b data w :
  a ∉ faulty w → b ∉ faulty w → files w !! a = Some data →
  os.Rename a b w =
    (None, set_files (λ fs, <[b := data]> (delete a fs))
             (set_trace (cons (EvRename a b)) w)).
Proof.
  intros Ha Hb Hf. unfold os.Rename. io_unfold.
  rewrite decide_False by tauto. by rewrite Hf.
Qed.

Lemma Lock_run p w :
  p ∉ faulty w →
  ∃ w', flock.Lock p w = (None, w') ∧ faulty w' = faulty w ∧
        http w' = http w ∧
        ∀ q, q ≠ p → files w' !! q = files w !! q.
Proof.
  intros Hp. unfold flock.Lock. io_unfold.
  rewrite decide_False by done. eexists. split; [done|]. simpl.
  split_and!; [done..|]. intros q Hq.
  destruct (files w !! p); [done|]. by rewrite lookup_insert_ne.
Qed.

End os_facts.

Section targetStore_facts.
Context {json : JSON}.
Import targetState targetStore pool compact_facts.
Implicit Types (w : World) (p id : string) (l : list string).

Lemma targetStore_read_run p w l :
  p ∉ faulty w → persisted p w l →
  read (at_path p) w =
    ((compact (targetState.mk l), None), set_trace (cons (EvReadFile p)) w).
Proof.
  intros Hp Hl. unfold read. simpl.
  erewrite IO_bind_run by by apply ReadFile_run.
  destruct Hl as [Hf|b l Hf Hb]; rewrite Hf; simpl; [done|].
  by rewrite Hb.
Qed.

Lemma targetStore_write_run p state w :
  p ∉ faulty w → (p +:+ ".tmp") ∉ faulty w →
  ∃ w', write (at_path p) state w = (None, w') ∧
        faulty w' = faulty w ∧ http w' = http w ∧
        files w' =
          <[p := Marshal_targetState state]>
            (delete (p +:+ ".tmp") (files w)) ∧
        trace w' =
          EvRename (p +:+ ".tmp") p
            :: EvWriteFile (p +:+ ".tmp") (Marshal_targetState state)
            :: trace w.
Proof.
  intros Hp Htmp. unfold write. simpl.
  io_bind ltac:(by apply WriteFile_run).
  erewrite Rename_run; [|done..|by apply lookup_insert_eq].
  eexists. split; [done|]. simpl. split_and!; [done..| |done].
  by rewrite delete_insert_eq.
Qed.

Lemma lock_file_apart p w w1 :
  (∀ q, q ≠ p +:+ ".lock" → files w1 !! q = files w !! q) →
  files w1 !! p = files w !! p.
Proof. intros Hfs. apply Hfs. intros Heq. by apply (append_ne p ".lock"). Qed.

Lemma persisted_same_file p w w' l :
  files w' !! p = files w !! p → persisted p w l → persisted p w' l.
Proof.
  intros Heq [Hf|b l' Hf Hb]; [constructor 1|econstructor 2];
    rewrite ?Heq; eauto.
Qed.

Lemma Checkin_locked_run p id w l :
  p ∉ faulty w → (p +:+ ".tmp") ∉ faulty w → persisted p w l →
  ∃ w', Checkin_locked (at_path p) id w = (None, w') ∧
        faulty w' = faulty w ∧
        if decide (id ∈ Idle (compact (targetState.mk l)))
        then files w' = files w
        else files w' !! p =
               Some (Marshal_targetState (compact (targetState.mk (l ++ [id])))).
Proof.
  intros Hp Htmp Hl. unfold Checkin_locked.
  io_bind ltac:(by apply targetStore_read_run).
  destruct (decide (id ∈ Idle (compact (targetState.mk l)))) as [Hin|Hin].
  - by eexists.
  - destruct (targetStore_write_run p
                (compact (targetState.mk (Idle (compact (targetState.mk l)) ++ [id])))
                (set_trace (cons (EvReadFile p)) w))
      as (w2 & Hrun2 & Hf2 & _ & Hfs2 & _); [done..|].
    exists w2. split; [done|]. split; [done|].
    rewrite Hfs2, lookup_insert_eq. by rewrite compact_compact_app.
Qed.

(** What [Checkin] leaves in the state file. *)
Lemma Checkin_run p id w l :
  healthy p w → persisted p w l →
  ∃ w', Checkin (Some (at_path p)) id w = (None, w') ∧
        faulty w' = faulty w ∧
        if decide (id = "" ∨ id ∈ Idle (compact (targetState.mk l)))
        then files w' !! p = files w !! p
        else files w' !! p =
               Some (Marshal_targetState (compact (targetState.mk (l ++ [id])))).
Proof.
  intros (Hp & Htmp & Hlock) Hl. unfold Checkin.
  destruct (decide (id = "")) as [->|Hid].
  { exists w. rewrite decide_True by tauto. done. }
  destruct (Lock_run (p +:+ ".lock") w Hlock) as (w1 & Hrun1 & Hf1 & _ & Hfs1).
  apply lock_file_apart in Hfs1.
  cbv beta iota. io_bind done.
  destruct (Checkin_locked_run p id w1 l) as (w2 & Hrun2 & Hf2 & Hfs2);
    [by rewrite Hf1..|by eapply persisted_same_file|].
  unfold deferring_Unlock. erewrite IO_bind_run by done.
  eexists. split; [done|]. simpl. split; [congruence|].
  destruct (decide (id ∈ Idle (compact (targetState.mk l)))) as [Hin|Hin].
  - rewrite decide_True by tauto. by rewrite Hfs2.
  - rewrite decide_False by tauto. done.
Qed.

Lemma deferring_Unlock_releases {A} (s : targetStore.t) (body : IO A) w :
  lock s ∉ held (deferring_Unlock s body w).2.
Proof.
  unfold deferring_Unlock, flock.Unlock. io_unfold.
  destruct (body w) as [r w1]. simpl. set_solver.
Qed.

(** The lock is not held after [Checkout] or [Checkin], whatever they
    return. *)
Lemma lock_released (s : targetStore.t) w :
  lock s ∉ held w →
  (lock s ∉ held (Checkout (Some s) w).2) ∧
  (∀ id, lock s ∉ held (Checkin (Some s) id w).2).
Proof.
  intros Hfree. split; [|intros id]; unfold Checkout, Checkin.
  - unfold mbind at 1, IO_bind at 1.
    destruct (flock.Lock (lock s) w) as [[e|] w1] eqn:Hlock.
    + revert Hlock. unfold flock.Lock. io_unfold.
      case_match; intros; by simplify_eq/=.
    + apply deferring_Unlock_releases.
  - destruct (decide (id = "")); [done|].
    unfold mbind at 1, IO_bind at 1.
    destruct (flock.Lock (lock s) w) as [[e|] w1] eqn:Hlock.
    + revert Hlock. unfold flock.Lock. io_unfold.
      case_match; intros; by simplify_eq/=.
    + apply deferring_Unlock_releases.
Qed.
End targetStore_facts.

Section pool_theorems.
Context {json : JSON}.
Import targetState targetStore pool compact_facts.
Implicit Types (w : World) (p id : string) (l : list string).

Lemma healthy_same_faults p w w' :
  faulty w' = faulty w → healthy p w → healthy p w'.
Proof. unfold healthy. by intros ->. Qed.


(** One [Checkin], seen on the persisted sequence. *)
Lemma Checkin_persisted p id w l :
  healthy p w → persisted p w l →
  round_trips (compact (targetState.mk (l ++ [id]))) →
  ∃ w' l', Checkin (Some (at_path p)) id w = (None, w') ∧
           faulty w' = faulty w ∧ persisted p w' l' ∧
           compact (targetState.mk l') = compact (targetState.mk (l ++ [id])) ∧
           (l' = l ∨ l' = Idle (compact (targetState.mk (l ++ [id])))).
Proof.
  intros Hw Hl Hrt.
  destruct (Checkin_run p id w l Hw Hl) as (w' & Hrun & Hf & Hfs).
  destruct (decide (id = "" ∨ id ∈ Idle (compact (targetState.mk l))))
    as [Hdup|Hnew].
  - exists w', l. split_and!; [done..|by eapply persisted_same_file| |by left].
    destruct Hdup as [->|Hin].
    + by rewrite compact_app_empty.
    + by rewrite compact_app_elem.
  - exists w', (Idle (compact (targetState.mk (l ++ [id])))).
    split_and!; [done..| | |by right].
    + econstructor 2; [done|]. rewrite Hrt. by destruct (compact _).
    + rewrite <-(compact_idemp (l ++ [id])) at 2.
      by destruct (compact (targetState.mk (l ++ [id]))).
Qed.


End pool_theorems.

Section checkout_theorems.
Context {json : JSON}.
Import targetState targetStore pool compact_facts.
Implicit Types (w : World) (p id : string) (l : list string).

Lemma Checkout_locked_empty p w l :
  p ∉ faulty w → persisted p w l →
  Idle (compact (targetState.mk l)) = [] →
  ∃ w', Checkout_locked (at_path p) w = (("", None), w') ∧
        faulty w' = faulty w ∧ files w' = files w.
Proof.
  intros Hp Hl Hempty. unfold Checkout_locked.
  io_bind ltac:(by apply targetStore_read_run).
  rewrite Hempty. by eexists.
Qed.

Lemma Checkout_locked_pop p w l id rest :
  p ∉ faulty w → (p +:+ ".tmp") ∉ faulty w → persisted p w l →
  Idle (compact (targetState.mk l)) = id :: rest →
  ∃ w', Checkout_locked (at_path p) w = ((id, None), w') ∧
        faulty w' = faulty w ∧
        files w' !! p = Some (Marshal_targetState (targetState.mk rest)).
Proof.
  intros Hp Htmp Hl Hpop. unfold Checkout_locked.
  io_bind ltac:(by apply targetStore_read_run).
  rewrite Hpop.
  destruct (targetStore_write_run p (targetState.mk rest) (set_trace (cons (EvReadFile p)) w))
    as (w2 & Hrun2 & Hf2 & _ & Hfs2 & _); [done..|].
  erewrite IO_bind_run by done.
  exists w2. split_and!; [done..|]. by rewrite Hfs2, lookup_insert_eq.
Qed.

Lemma Checkout_run_locked p w :
  (p +:+ ".lock") ∉ faulty w →
  ∃ w1, faulty w1 = faulty w ∧ files w1 !! p = files w !! p ∧
    ∀ r w2, Checkout_locked (at_path p) w1 = (r, w2) →
      ∃ w', Checkout (Some (at_path p)) w = (r, w') ∧
            faulty w' = faulty w2 ∧ files w' = files w2.
Proof.
  intros Hlock.
  destruct (Lock_run (p +:+ ".lock") w Hlock) as (w1 & Hrun1 & Hf1 & _ & Hfs1).
  apply lock_file_apart in Hfs1.
  exists w1. split_and!; [done..|]. intros r w2 Hrun2.
  unfold Checkout. cbv beta iota. io_bind done.
  unfold deferring_Unlock. erewrite IO_bind_run by done.
  by eexists.
Qed.

(** C2 (amended).  When the persisted idle sequence [l0] normalises to a
    sequence that is not empty, [Checkout] returns its first identifier
    [id] without error and persists the remaining ones [rest]; [id] is the
    smallest identifier of the normalised sequence in the byte-wise
    lexicographic order and does not occur in [rest]. *)
Theorem Checkout_takes_smallest p w l0 :
  healthy p w →
  persisted p w l0 →
  Idle (compact (targetState.mk l0)) ≠ [] →
  ∃ id rest w',
    Idle (compact (targetState.mk l0)) = id :: rest ∧
    Checkout (Some (at_path p)) w = ((id, None), w') ∧
    files w' !! p = Some (Marshal_targetState (targetState.mk rest)) ∧
    (∀ x, x ∈ Idle (compact (targetState.mk l0)) → String.le id x) ∧
    id ∉ rest.
Proof.
  intros (Hp & Htmp & Hlock) Hl Hne.
  destruct (Idle (compact (targetState.mk l0))) as [|id rest] eqn:Hpop; [done|].
  destruct (Checkout_run_locked p w Hlock)
    as (w1 & Hf1 & Hfs1 & Hout).
  destruct (Checkout_locked_pop p w1 l0 id rest)
    as (w2 & Hrun2 & Hf2 & Hfs2);
    [by rewrite Hf1..|by eapply persisted_same_file|done|].
  destruct (Hout _ _ Hrun2) as (w' & Hrun & _ & Hfs).
  exists id, rest, w'. split_and!; [done..|by rewrite Hfs| |].
  - destruct (compact_spec l0) as (Hs & _ & _). rewrite Hpop in Hs.
    apply (Sorted_StronglySorted _) in Hs.
    apply StronglySorted_inv in Hs as [_ Hall].
    intros x [->|Hx]%elem_of_cons; [done|].
    by eapply Forall_forall in Hall.
  - destruct (compact_spec l0) as (_ & Hn & _). rewrite Hpop in Hn.
    by apply NoDup_cons in Hn as [? _].
Qed.

(** C7.  [Checkout] of a pool whose persisted idle sequence is empty, be
    it that the state file is absent or that it holds an empty sequence,
    returns the empty string and a nil error and leaves the state file as
    it is; so do [Checkout] on a nil store and [Checkout] after [Clear],
    which itself returns nil whether the file was there or not. *)
Theorem Checkout_empty_pool p w :
  p ∉ faulty w → (p +:+ ".lock") ∉ faulty w →
  Checkout None w = (("", None), w) ∧
  (persisted p w [] →
   ∃ w', Checkout (Some (at_path p)) w = (("", None), w') ∧
         files w' !! p = files w !! p) ∧
  (∃ w1, Clear (Some (at_path p)) w = (None, w1) ∧
         files w1 !! p = None ∧
         (∃ w2, Clear (Some (at_path p)) w1 = (None, w2) ∧
                files w2 !! p = None) ∧
         (∃ w3, Checkout (Some (at_path p)) w1 = (("", None), w3) ∧
                files w3 !! p = None)).
Proof.
  intros Hp Hlock.
  assert (∀ w0, p ∉ faulty w0 → (p +:+ ".lock") ∉ faulty w0 →
            persisted p w0 [] →
            ∃ w', Checkout (Some (at_path p)) w0 = (("", None), w') ∧
                  files w' !! p = files w0 !! p) as Hempty.
  { intros w0 Hp0 Hlock0 Hl.
    destruct (Checkout_run_locked p w0 Hlock0)
      as (w1 & Hf1 & Hfs1 & Hout).
    destruct (Checkout_locked_empty p w1 [])
      as (w2 & Hrun2 & Hf2 & Hfs2);
      [by rewrite Hf1|by eapply persisted_same_file|done|].
    destruct (Hout _ _ Hrun2) as (w' & Hrun & _ & Hfs).
    exists w'. split; [done|]. by rewrite Hfs, Hfs2. }
  assert (∀ w0, p ∉ faulty w0 →
            ∃ w1, Clear (Some (at_path p)) w0 = (None, w1) ∧
                  faulty w1 = faulty w0 ∧ files w1 !! p = None) as Hclear.
  { intros w0 Hp0. unfold Clear, os.Remove. io_unfold.
    rewrite decide_False by done.
    destruct (files w0 !! p) eqn:Hf; simpl; eexists; (split; [done|]);
      simpl; [|done]. split; [done|]. apply lookup_delete_eq. }
  split_and!; [done|by apply Hempty|].
  destruct (Hclear w Hp) as (w1 & Hrun1 & Hf1 & Hfs1).
  exists w1. split_and!; [done..| |].
  - destruct (Hclear w1) as (w2 & ? & ? & ?); [by rewrite Hf1|]. eauto.
  - destruct (Hempty w1) as (w3 & ? & Hfs3); [by rewrite Hf1..|by constructor|].
    exists w3. by rewrite Hfs3.
Qed.
End checkout_theorems.

Section pool_examples.
Import targetState targetStore pool Examples.
Existing Instance Reference.json.

Lemma healthy_world p fs : healthy p (world fs).
Proof. unfold healthy, world; simpl. split_and!; apply not_elem_of_empty. Defined.



Lemma Checkout_takes_smallest_witness :
  ∃ w', Checkout (Some (at_path tabs)) (world (pool_file ["t2"; "t1"; "t1"]))
          = (("t1", None), w') ∧
        compact (targetState.mk ["t2"; "t1"; "t1"]) = targetState.mk ["t1"; "t2"] ∧
        persisted tabs w' ["t2"].
Proof.
  destruct (Checkout_takes_smallest tabs (world (pool_file ["t2"; "t1"; "t1"]))
              ["t2"; "t1"; "t1"])
    as (id & rest & w' & Hpop & Hrun & Hfs & _).
  - apply healthy_world.
  - econstructor 2; vm_compute; reflexivity.
  - vm_compute. discriminate.
  - vm_compute in Hpop. injection Hpop as <- <-.
    exists w'. split_and!; [done|vm_compute; reflexivity|].
    econstructor 2; [exact Hfs|vm_compute; reflexivity].
Defined.

(** C2 as stated fails.  The persisted sequence that holds one blank
    identifier is not empty, but it normalises to the empty sequence:
    [Checkout] returns the empty string and removes nothing. *)
Lemma Checkout_blank_pool :
  ∃ w', persisted tabs (world (pool_file [" "])) [" "] ∧
        Checkout (Some (at_path tabs)) (world (pool_file [" "])) = (("", None), w') ∧
        persisted tabs w' [" "].
Proof.
  eexists. split_and!.
  - econstructor 2; vm_compute; reflexivity.
  - vm_compute. reflexivity.
  - econstructor 2; vm_compute; reflexivity.
Qed.

Lemma Checkout_empty_pool_witness :
  ∃ w', Checkout (Some (at_path tabs)) (world ∅) = (("", None), w') ∧
        files w' !! tabs = None.
Proof.
  destruct (Checkout_empty_pool tabs (world ∅)) as (_ & Hempty & _).
  - apply not_elem_of_empty.
  - apply not_elem_of_empty.
  - destruct Hempty as (w' & Hrun & Hfs); [by constructor|].
    exists w'. split; [done|]. rewrite Hfs. reflexivity.
Defined.
End pool_examples.

Section endpoint_facts.
Context {json : JSON}.
Import cdpEndpointStore cache.
Implicit Types (w : World) (s : cdpEndpointStore.t) (host : string).

(** Reading the cache changes nothing but the trace. *)
Lemma cdpEndpointStore_read_frame s w :
  ∃ r, read s w = (r, set_trace (cons (EvReadFile (path s))) w).
Proof.
  unfold read, os.ReadFile. io_unfold.
  repeat (case_match; simpl; simplify_eq; eauto).
Qed.

Lemma cdpEndpointStore_read_entries s w state :
  (read s w).1 = (state, None) → is_Some (cdpEndpointState.Entries state).
Proof.
  unfold read, os.ReadFile. io_unfold.
  repeat (case_match; simpl; simplify_eq; eauto); intros; simplify_eq; eauto.
Qed.

Lemma cdpEndpointStore_read_written s w data state :
  path s ∉ faulty w → files w !! path s = Some data →
  String.length data ≠ 0 →
  Unmarshal_cdpEndpointState data = Some state →
  is_Some (cdpEndpointState.Entries state) →
  (read s w).1 = (state, None).
Proof.
  intros Hp Hf Hlen Hdec [m Hm]. unfold read.
  io_bind ltac:(by apply ReadFile_run). rewrite Hf. cbv beta iota.
  rewrite decide_False by done. by rewrite Hdec, Hm.
Qed.

Lemma cdpEndpointStore_write_run s state w :
  path s ∉ faulty w → (path s +:+ ".tmp") ∉ faulty w →
  ∃ w', write s state w = (None, w') ∧
        faulty w' = faulty w ∧ http w' = http w ∧
        files w' =
          <[path s := Marshal_cdpEndpointState state]>
            (delete (path s +:+ ".tmp") (files w)) ∧
        trace w' =
          EvRename (path s +:+ ".tmp") (path s)
            :: EvWriteFile (path s +:+ ".tmp") (Marshal_cdpEndpointState state)
            :: trace w.
Proof.
  intros Hp Htmp. unfold write.
  io_bind ltac:(by apply WriteFile_run).
  erewrite Rename_run; [|done..|by apply lookup_insert_eq].
  eexists. split; [done|]. simpl. split_and!; [done..| |done].
  by rewrite delete_insert_eq.
Qed.

Lemma Get_frame store host w :
  ∃ r w', Get store host w = (r, w') ∧
          files w' = files w ∧ faulty w' = faulty w ∧ http w' = http w.
Proof.
  destruct store as [s|]; [|by exists ("", false, None), w].
  unfold Get. destruct (cdpEndpointStore_read_frame s w) as [[state err] Hrun].
  io_bind done.
  destruct err; [by eexists _, _|].
  destruct (cdpEndpointState.Entries state ≫= _); by eexists _, _.
Qed.


(** C10.  [Remember] on a nil store, with an empty host or with an empty
    value returns nil and leaves the world as it is: no file is read or
    written, no system call is traced. *)
Theorem Remember_nothing store host wsURL w :
  store = None ∨ host = "" ∨ wsURL = "" →
  Remember store host wsURL w = (None, w).
Proof.
  intros Hnothing. unfold Remember. destruct store as [s|]; [|done].
  rewrite decide_True; [done|]. by destruct Hnothing as [?|[?|?]]; [|left|right].
Qed.

(** [read] never returns a nil map, so [Remember] never panics. *)
Lemma Remember_never_panics store host wsURL w :
  (Remember store host wsURL w).1
    ≠ Some (ErrNew "panic: assignment to entry in nil map").
Proof.
  unfold Remember. destruct store as [s|]; [|done].
  destruct (decide _); [done|].
  destruct (cdpEndpointStore_read_frame s w) as [[state err] Hread].
  io_bind done.
  pose proof (cdpEndpointStore_read_entries s w state) as Hentries. rewrite Hread in Hentries.
  destruct err as [e|].
  - simpl. intros [= ->].
    revert Hread. unfold read, os.ReadFile. io_unfold.
    repeat (case_match; simpl; simplify_eq; eauto); intros; simplify_eq.
  - destruct (Hentries eq_refl) as [m ->].
    unfold write, os.WriteFile, os.Rename. io_unfold.
    repeat (case_match; simpl; simplify_eq; eauto).
Qed.
End endpoint_facts.

Section resolve_facts.
Context {json : JSON} {neturl : NetURL}.
Import cache.
Implicit Types (w : World) (raw host : string) (u : url.URL).

Lemma fetch_fails scheme host w :
  probe_fails scheme host w →
  ∃ e, fetchWebsocketDebuggerURL scheme host w
       = (("", Some e),
          set_trace (cons (EvHTTPGet (json_version_endpoint scheme host))) w).
Proof.
  unfold probe_fails, fetchWebsocketDebuggerURL, http_Get. io_unfold.
  destruct (http w _) as [|status body]; [by eexists|].
  intros [Hstatus|[Hdec|Hdec]].
  - rewrite decide_True by done. by eexists.
  - destruct (decide (status ≠ 200)); [by eexists|]. rewrite Hdec. by eexists.
  - destruct (decide (status ≠ 200)); [by eexists|]. rewrite Hdec.
    rewrite decide_True by done. by eexists.
Qed.

Lemma probe_fails_same_network scheme host w w' :
  http w' = http w → probe_fails scheme host w → probe_fails scheme host w'.
Proof. unfold probe_fails. by intros ->. Qed.

Lemma JoinHostPort_nonempty host port : net_JoinHostPort host port ≠ "".
Proof.
  unfold net_JoinHostPort. destruct (has_byte _ _); [done|].
  destruct host; done.
Qed.

Lemma normalize_host_nonempty raw u host :
  resolveCDPEndpoint_normalize raw = inr (u, host) → host ≠ "".
Proof.
  unfold resolveCDPEndpoint_normalize. destruct (url_Parse _) as [e|u0]; [done|].
  destruct (decide (url.Host u0 = "")); [done|].
  destruct (net_SplitHostPort (url.Host u0)); intros [= <- <-]; [done|].
  apply JoinHostPort_nonempty.
Qed.

(** C4.  When the normalised URL [u] of the address has a path that
    contains [/devtools/browser/], [resolveCDPEndpoint] returns the text
    of [u] and the host key with a nil error and leaves the world as it
    is: the cache is not looked up, the network is not probed, no file
    changes. *)
Theorem resolve_direct_reference raw store w u host :
  resolveCDPEndpoint_normalize raw = inr (u, host) →
  strings_Contains (url.Path u) "/devtools/browser/" = true →
  resolveCDPEndpoint raw store w = ((URL_String u, host, None), w).
Proof.
  intros Hnorm Hpath. unfold resolveCDPEndpoint. by rewrite Hnorm, Hpath.
Qed.

(** C5.  When the resolution of an address reaches the probe (the address
    normalises to [u] and [host], is not a direct reference and the cache
    has no endpoint for [host]) and the probe fails, by a request that
    gets no response, a status other than 200, an undecodable body or a
    body without [webSocketDebuggerUrl], then [resolveCDPEndpoint] returns
    a non-nil error together with the text of [u] and the non-empty host
    key, and no file has changed. *)
Theorem resolve_probe_failure raw store w u host :
  resolveCDPEndpoint_normalize raw = inr (u, host) →
  strings_Contains (url.Path u) "/devtools/browser/" = false →
  ¬ hit store host w →
  probe_fails (url.Scheme u) host w →
  ∃ e w',
    resolveCDPEndpoint raw store w = ((URL_String u, host, Some e), w') ∧
    host ≠ "" ∧
    files w' = files w.
Proof.
  intros Hnorm Hpath Hmiss Hprobe. unfold resolveCDPEndpoint.
  rewrite Hnorm, Hpath.
  assert (∃ w1, (match store with
                 | None => mret None
                 | Some _ =>
                     '(cached, ok, err) ← cdpEndpointStore.Get store host;
                     match err, ok with
                     | None, true => mret (Some cached)
                     | Some e, _ =>
                         _ ← slog_Warn "read cached cdp endpoint" e; mret None
                     | None, false => mret None
                     end
                 end) w = (None, w1) ∧ files w1 = files w ∧ http w1 = http w)
    as (w1 & Hlookup & Hfs1 & Hhttp1).
  { destruct store as [s|]; [|by exists w].
    destruct (Get_frame (Some s) host w) as ([[cached ok] err] & w1 & Hget & ? & _ & ?).
    io_bind done.
    destruct err as [e|]; [by eexists|].
    destruct ok; [|by eexists].
    destruct Hmiss. exists cached. by rewrite Hget. }
  io_bind done.
  destruct (fetch_fails (url.Scheme u) host w1) as [e Hfetch].
  { by eapply probe_fails_same_network. }
  io_bind done.
  exists e. eexists. split_and!; [done| |done].
  by eapply normalize_host_nonempty.
Qed.

(** C6, at the input [ws://[::1]].  [url.Parse] keeps the brackets of an
    IPv6 literal in [Host]; [net.SplitHostPort] finds no port in [[::1]],
    and [net.JoinHostPort], given a host with a colon, brackets it again.
    The host key is [[[::1]]:9222], not the host followed by [:9222], and
    it has no port that [net.SplitHostPort] would find. *)
Theorem normalize_ipv6_literal u :
  url_Parse "ws://[::1]" = inr u →
  url.Host u = "[::1]" →
  resolveCDPEndpoint_normalize "ws://[::1]"
    = inr (url.set_Host "[[::1]]:9222" u, "[[::1]]:9222") ∧
  "[[::1]]:9222" ≠ "[::1]" +:+ ":9222" ∧
  net_SplitHostPort "[[::1]]:9222" = None.
Proof.
  intros Hparse Hhost. unfold resolveCDPEndpoint_normalize.
  rewrite decide_False by done.
  change (strings_Contains "ws://[::1]" "://") with true. cbv iota.
  rewrite Hparse, Hhost. rewrite decide_False by done.
  split_and!; [reflexivity|done|reflexivity].
Qed.

(** The three normalisations of C6, where the code performs them. *)
Lemma normalize_steps raw :
  let norm := if decide (raw = "") then "ws://127.0.0.1:9222" else raw in
  let norm' := if strings_Contains norm "://" then norm else "ws://" +:+ norm in
  ∀ u, url_Parse norm' = inr u → url.Host u ≠ "" →
    resolveCDPEndpoint_normalize raw =
      if net_SplitHostPort (url.Host u) is None
      then inr (url.set_Host (net_JoinHostPort (url.Host u) "9222") u,
                net_JoinHostPort (url.Host u) "9222")
      else inr (u, url.Host u).
Proof.
  intros norm norm' u Hparse Hhost. unfold resolveCDPEndpoint_normalize.
  fold norm. fold norm'. rewrite Hparse. rewrite decide_False by done.
  by destruct (net_SplitHostPort (url.Host u)).
Qed.
End resolve_facts.

Section resolve_examples.
Import Examples cache.
Existing Instance Reference.json.
Existing Instance Reference.net_url.

(** The example of C6. *)
Example normalize_127_0_0_1 :
  ∃ u, resolveCDPEndpoint_normalize "127.0.0.1" = inr (u, "127.0.0.1:9222") ∧
       URL_String u = "ws://127.0.0.1:9222".
Proof. eexists. split; vm_compute; reflexivity. Qed.

Lemma normalize_ipv6_literal_witness :
  ∃ u, resolveCDPEndpoint_normalize "ws://[::1]" = inr (u, "[[::1]]:9222") ∧
       URL_String u = "ws://[[::1]]:9222".
Proof.
  destruct (normalize_ipv6_literal
              (url.mk "ws" "" None "[::1]" "" "" false "" "" ""))
    as (Hnorm & _ & _); [vm_compute; reflexivity|reflexivity|].
  eexists. split; [exact Hnorm|vm_compute; reflexivity].
Defined.

Lemma resolve_direct_reference_witness :
  resolveCDPEndpoint "127.0.0.1:9222/devtools/browser/abc" None (world ∅)
  = (("ws://127.0.0.1:9222/devtools/browser/abc", "127.0.0.1:9222", None),
     world ∅).
Proof.
  etrans.
  - apply (resolve_direct_reference "127.0.0.1:9222/devtools/browser/abc" None
             (world ∅)
             (url.mk "ws" "" None "127.0.0.1:9222" "/devtools/browser/abc"
                     "" false "" "" "")
             "127.0.0.1:9222"); vm_compute; reflexivity.
  - vm_compute; reflexivity.
Defined.

Lemma resolve_probe_failure_witness :
  ∃ e w',
    resolveCDPEndpoint "127.0.0.1" (Some (cdpEndpointStore.mk "cdp-endpoints.json"))
      (world ∅)
    = (("ws://127.0.0.1:9222", "127.0.0.1:9222", Some e), w').
Proof.
  destruct (resolve_probe_failure "127.0.0.1"
              (Some (cdpEndpointStore.mk "cdp-endpoints.json")) (world ∅)
              (url.mk "ws" "" None "127.0.0.1:9222" "" "" false "" "" "")
              "127.0.0.1:9222")
    as (e & w' & Hrun & _ & _).
  - vm_compute; reflexivity.
  - vm_compute; reflexivity.
  - intros [cached Hhit]. vm_compute in Hhit. discriminate.
  - vm_compute. exact I.
  - exists e, w'. exact Hrun.
Defined.
End resolve_examples.

Section cache_examples.
Import Examples cache cdpEndpointStore.
Existing Instance Reference.json.


Lemma Remember_nothing_witness :
  Remember (Some (cdpEndpointStore.mk "cdp-endpoints.json")) "" "ws://x" (world ∅)
  = (None, world ∅).
Proof. apply Remember_nothing. right. left. reflexivity. Defined.
End cache_examples.

(** ** The session registry: C8 *)

Section registry.
Import Sessions.

(** C8.  For a session [obj] at address [p] and any registry: [Add]
    registers it, the following [Get] of its identifier returns the
    session with found = true, [Remove] of the identifier makes [Get]
    return found = false, and [Remove] deletes that one entry only: the
    other entries, the session objects and the channels are as before, so
    the request channel of the session is in the state it was in. *)
Theorem registry_Add_Get_Remove (m : Mem) (p : positive) (obj : Session) :
  objects m !! p = Some obj →
  ∃ m1 m2,
    Add (Some p) m = Returns tt m1 ∧
    Get (id obj) m1 = Returns (Some p, true) m1 ∧
    Remove (id obj) m1 = Returns tt m2 ∧
    Get (id obj) m2 = Returns (None, false) m2 ∧
    (∀ j, j ≠ id obj → s m2 !! j = s m1 !! j) ∧
    objects m2 = objects m1 ∧
    chans m2 = chans m1 ∧
    channel_of p m2 = channel_of p m.
Proof.
  intros Hobj. eexists _, _. unfold Add, Get, Remove. simpl. rewrite Hobj.
  split_and!; [done| |done| |..|done|done|done]; simpl.
  - by rewrite lookup_insert_eq.
  - by rewrite lookup_delete_eq.
  - intros j Hj. by rewrite lookup_delete_ne.
Qed.

(** Closing is what changes the channel, and it can be done once. *)
Lemma Close_closes (m : Mem) (p : positive) :
  channel_of p m = Some Open →
  ∃ m', Session_Close (Some p) m = Returns tt m' ∧
        channel_of p m' = Some Closed ∧
        Session_Close (Some p) m' = Panics ∧
        s m' = s m.
Proof.
  unfold channel_of, Session_Close. simpl.
  destruct (objects m !! p) as [obj|] eqn:Hobj; [|done]. simpl.
  destruct (creq obj) as [c|] eqn:Hc; [|done].
  intros Hopen. rewrite Hopen. eexists. split; [done|]. simpl.
  rewrite Hobj. simpl. rewrite Hc. rewrite lookup_insert_eq. done.
Qed.

Lemma registry_Add_Get_Remove_witness :
  let '(p, m) := NewSession 7 0 (mkMem ∅ ∅ ∅) in
  ∃ m1 m2,
    Add (Some p) m = Returns tt m1 ∧
    Get 7%N m1 = Returns (Some p, true) m1 ∧
    Remove 7%N m1 = Returns tt m2 ∧
    Get 7%N m2 = Returns (None, false) m2 ∧
    channel_of p m2 = Some Open.
Proof.
  destruct (NewSession 7 0 (mkMem ∅ ∅ ∅)) as [p m] eqn:Hnew.
  vm_compute in Hnew. injection Hnew as <- <-.
  destruct (registry_Add_Get_Remove
              (mkMem {[ 1%positive := mkSession 7 (Some 1%positive) 0 ]}
                     {[ 1%positive := Open ]} ∅)
              1%positive (mkSession 7 (Some 1%positive) 0))
    as (m1 & m2 & Hadd & Hget & Hrem & Hget' & _ & _ & _ & Hchan).
  - vm_compute; reflexivity.
  - exists m1, m2. split_and!; [exact Hadd|exact Hget|exact Hrem|exact Hget'|].
    rewrite Hchan. vm_compute; reflexivity.
Defined.
End registry.

(** ** Atomicity of the persistence writes: C9 *)

Section atomic_write.
Import AtomicWrite.
Implicit Types (path data : string) (fs : gmap string string).

Lemma tmp_ne path : tmp path ≠ path.
Proof. by apply append_ne. Qed.

Lemma prefix_all data : prefix (String.length data) data = data.
Proof.
  unfold prefix. induction data as [|c data IH]; [done|].
  simpl. by rewrite IH.
Qed.

Lemma prefix_0 data : prefix 0 data = "".
Proof. by destruct data. Qed.

Lemma step_files_in path data fs0 st st' :
  files_in path data fs0 st → step path data st st' →
  files_in path data fs0 st'.
Proof.
  intros Hinv Hstep. destruct Hstep as [fs|n k fs Hk Hlen|fs|fs b Hb];
    unfold files_in in *; simpl in *.
  - subst fs. split; [lia|]. by rewrite prefix_0.
  - destruct Hinv as [_ ->]. split; [done|]. by rewrite insert_insert_eq.
  - destruct Hinv as [_ ->]. by rewrite prefix_all.
  - subst fs. rewrite lookup_insert_eq in Hb. injection Hb as <-.
    by rewrite delete_insert_eq.
Qed.

Lemma reachable_files_in path data fs0 st :
  reachable path data fs0 st → files_in path data fs0 st.
Proof.
  unfold reachable. revert st. apply rtc_ind_r; [done|].
  intros st st' _ Hstep IH. by eapply step_files_in.
Qed.

(** The whole sequence, when nothing interrupts it. *)
Lemma complete_run path data fs0 :
  reachable path data fs0
    (Renamed, <[path := data]> (delete (tmp path) fs0)).
Proof.
  unfold reachable.
  eapply rtc_l; [apply step_open|].
  assert (rtc (step path data) (Writing 0, <[tmp path := ""]> fs0)
            (Writing (String.length data), <[tmp path := data]> fs0)) as Hwrite.
  { destruct (decide (String.length data = 0)) as [Hz|Hnz].
    - destruct data; [|done]. simpl. done.
    - eapply rtc_l; [|done].
      replace (<[tmp path := data]> fs0)
        with (<[tmp path := prefix (0 + String.length data) data]>
                (<[tmp path := ""]> fs0)).
      + apply (step_write path data 0 (String.length data)); lia.
      + simpl. by rewrite prefix_all, insert_insert_eq. }
  etrans; [exact Hwrite|].
  eapply rtc_l; [apply step_close|].
  eapply rtc_l; [|done].
  replace (delete (tmp path) fs0)
    with (delete (tmp path) (<[tmp path := data]> fs0))
    by by rewrite delete_insert_eq.
  apply step_rename. by rewrite lookup_insert_eq.
Qed.

(** C9.  [write] of the endpoint cache and [write] of the tab pool, when
    the operating system serves the two files, make two calls in this
    order: [WriteFile] of the whole new encoding to the temporary file,
    then [Rename] of the temporary file over the destination; the files
    they leave are those of the complete write sequence.  In every state
    that the sequence can be interrupted in, the destination holds its old
    content, or the whole new encoding; it holds the new encoding exactly
    when the rename has been done. *)
Theorem write_is_atomic {json : JSON} :
  (∀ (s : cdpEndpointStore.t) state w,
     cdpEndpointStore.path s ∉ faulty w →
     tmp (cdpEndpointStore.path s) ∉ faulty w →
     ∃ w', cdpEndpointStore.write s state w = (None, w') ∧
           trace w' =
             EvRename (tmp (cdpEndpointStore.path s)) (cdpEndpointStore.path s)
             :: EvWriteFile (tmp (cdpEndpointStore.path s))
                  (Marshal_cdpEndpointState state)
             :: trace w ∧
           reachable (cdpEndpointStore.path s) (Marshal_cdpEndpointState state)
             (files w) (Renamed, files w')) ∧
  (∀ (s : targetStore.t) state w,
     targetStore.path s ∉ faulty w →
     tmp (targetStore.path s) ∉ faulty w →
     ∃ w', targetStore.write s state w = (None, w') ∧
           trace w' =
             EvRename (tmp (targetStore.path s)) (targetStore.path s)
             :: EvWriteFile (tmp (targetStore.path s))
                  (Marshal_targetState state)
             :: trace w ∧
           reachable (targetStore.path s) (Marshal_targetState state)
             (files w) (Renamed, files w')) ∧
  (∀ path data fs0 ph fs,
     reachable path data fs0 (ph, fs) →
     (fs !! path = fs0 !! path ∨ fs !! path = Some data) ∧
     (ph = Renamed → fs !! path = Some data) ∧
     (ph ≠ Renamed → fs !! path = fs0 !! path)).
Proof.
  split_and!.
  - intros s state w Hp Htmp.
    destruct (cdpEndpointStore_write_run s state w Hp Htmp) as (w' & Hrun & _ & _ & Hfs & Htr).
    exists w'. split_and!; [done..|]. rewrite Hfs. apply complete_run.
  - intros [p lock] state w Hp Htmp. simpl in *.
    unfold targetStore.write. simpl.
    io_bind ltac:(by apply WriteFile_run).
    erewrite Rename_run; [|done..|by apply lookup_insert_eq].
    eexists. split_and!; [done..|]. simpl.
    rewrite delete_insert_eq. apply complete_run.
  - intros path data fs0 ph fs Hrun.
    apply reachable_files_in in Hrun. unfold files_in in Hrun. simpl in Hrun.
    pose proof (tmp_ne path) as Hne.
    destruct ph as [|n| |].
    + subst fs. by split_and!; [left| |].
    + destruct Hrun as [_ ->]. rewrite lookup_insert_ne by done.
      by split_and!; [left| |].
    + subst fs. rewrite lookup_insert_ne by done. by split_and!; [left| |].
    + subst fs. rewrite lookup_insert_eq. by split_and!; [right| |].
Qed.
End atomic_write.

Section atomic_write_example.
Import AtomicWrite Examples.
Existing Instance Reference.json.

(** Killed after three bytes of the new encoding: the state file still
    holds the old one. *)
Lemma write_is_atomic_witness :
  let old := Reference.marshal_targetState (targetState.mk ["t1"; "t2"]) in
  let new := Reference.marshal_targetState (targetState.mk ["t2"]) in
  let fs := <[tmp tabs := prefix 3 new]> (<[tmp tabs := ""]> {[ tabs := old ]}) in
  reachable tabs new {[ tabs := old ]} (Writing 3, fs) ∧
  fs !! tabs = Some old.
Proof.
  intros old new fs.
  assert (reachable tabs new {[ tabs := old ]} (Writing 3, fs)) as Hrun.
  { eapply rtc_l; [apply step_open|]. eapply rtc_l; [|apply rtc_refl].
    apply (step_write tabs new 0 3); [lia|vm_compute; lia]. }
  split; [exact Hrun|].
  destruct (write_is_atomic (json := Reference.json)) as (_ & _ & Hcrash).
  destruct (Hcrash tabs new {[ tabs := old ]} (Writing 3) fs Hrun)
    as (_ & _ & Hold).
  rewrite Hold by discriminate. vm_compute; reflexivity.
Defined.
End atomic_write_example.

(** * Further properties of the code *)

Section sanitizeKey_facts.

Lemma Replacer_Replace_length s :
  String.length (Replacer_Replace s) = String.length s.
Proof. induction s as [|c s IH]; simpl; congruence. Qed.

Lemma replace_byte_safe c : hostile (replace_byte c) = false.
Proof.
  unfold replace_byte. destruct (hostile c) eqn:Hc; [reflexivity|done].
Qed.

Lemma Replacer_Replace_safe s c :
  c ∈ bytes_of (Replacer_Replace s) → hostile c = false.
Proof.
  unfold bytes_of. induction s as [|c' s IH]; simpl.
  - by intros ?%elem_of_nil.
  - intros [->|?]%elem_of_cons; [apply replace_byte_safe|auto].
Qed.

Lemma Replacer_Replace_fixed s :
  (∀ c, c ∈ bytes_of s → hostile c = false) → Replacer_Replace s = s.
Proof.
  unfold bytes_of. induction s as [|c s IH]; simpl; [done|].
  intros Hsafe. unfold replace_byte. rewrite (Hsafe c) by by left.
  f_equal. apply IH. intros c' Hc'. apply Hsafe. by right.
Qed.

Lemma substring_0_length n s :
  String.length (String.substring 0 n s) = min n (String.length s).
Proof.
  revert s. induction n as [|n IH]; intros [|c s]; simpl; [done..|].
  by rewrite IH.
Qed.

Lemma substring_0_bytes n s c :
  c ∈ bytes_of (String.substring 0 n s) → c ∈ bytes_of s.
Proof.
  unfold bytes_of. revert s. induction n as [|n IH]; intros [|c' s]; simpl;
    try by intros ?%elem_of_nil.
  intros [->|?]%elem_of_cons; [by left|right; auto].
Qed.

(** X1.  For every key, [sanitizeKey] returns a name that is not
    empty, has at most 40 bytes and holds no colon, slash, backslash
    or space; a key that is empty or made of white space gives the
    name [default]. *)
Theorem sanitizeKey_file_name key :
  sanitizeKey key ≠ "" ∧
  (String.length (sanitizeKey key) ≤ 40)%nat ∧
  (∀ c, c ∈ bytes_of (sanitizeKey key) → hostile c = false) ∧
  (strings_TrimSpace key = "" → sanitizeKey key = "default").
Proof.
  unfold sanitizeKey.
  destruct (decide (strings_TrimSpace key = "")) as [Hblank|Hkey].
  { split_and!; [done|simpl; lia| |done].
    intros c Hc. vm_compute in Hc.
    repeat (apply elem_of_cons in Hc as [->|Hc]; [reflexivity|]).
    by apply elem_of_nil in Hc. }
  assert (String.length (strings_TrimSpace key) ≠ 0) as Hlen.
  { by destruct (strings_TrimSpace key). }
  destruct (decide (40 < String.length (Replacer_Replace (strings_TrimSpace key)))%nat)
    as [Hlong|Hshort].
  - split_and!; [| | |done].
    + intros Hempty%(f_equal String.length).
      rewrite substring_0_length in Hempty.
      change (String.length "") with 0 in Hempty. lia.
    + rewrite substring_0_length. lia.
    + intros c Hc%substring_0_bytes. by eapply Replacer_Replace_safe.
  - split_and!; [|lia|apply Replacer_Replace_safe|done].
    intros Hempty. rewrite <-Replacer_Replace_length, Hempty in Hlen. done.
Qed.

(** X2.  A key that is not empty, has no white space at its ends, has
    at most 40 bytes and holds no colon, slash, backslash or space is
    returned by [sanitizeKey] as it is. *)
Theorem sanitizeKey_safe_key key :
  key ≠ "" →
  strings_TrimSpace key = key →
  (String.length key ≤ 40)%nat →
  (∀ c, c ∈ bytes_of key → hostile c = false) →
  sanitizeKey key = key.
Proof.
  intros Hkey Htrim Hlen Hsafe. unfold sanitizeKey. rewrite Htrim.
  rewrite decide_False by done. rewrite Replacer_Replace_fixed by done.
  by rewrite decide_False by lia.
Qed.
End sanitizeKey_facts.

Section pool_cases.
Context {json : JSON}.
Import targetState targetStore pool pool_more compact_facts.
Implicit Types (w : World) (p id : string) (l : list string).

Lemma tmp_file_apart p : p +:+ ".tmp" ≠ p.
Proof. by apply append_ne. Qed.

(** Every way [read] can end. *)
Lemma targetStore_read_cases p w :
  ∃ r, read (at_path p) w = (r, set_trace (cons (EvReadFile p)) w) ∧
       ((∃ e, r = (targetState.mk [], Some e) ∧
              (p ∈ faulty w ∨ corrupt p w)) ∨
        (∃ l, r = (compact (targetState.mk l), None) ∧
              (p ∉ faulty w) ∧ persisted p w l)).
Proof.
  unfold read, os.ReadFile. io_unfold.
  destruct (decide (p ∈ faulty w)) as [Hp|Hp]; simpl.
  { eexists. split; [done|]. left. eauto. }
  destruct (files w !! p) as [b|] eqn:Hf; simpl.
  - destruct (Unmarshal_targetState b) as [[l]|] eqn:Hb.
    + eexists. split; [done|]. right. exists l. split_and!; [done..|].
      by econstructor 2.
    + eexists. split; [done|]. left. eexists. split; [done|]. right.
      by exists b.
  - eexists. split; [done|]. right. exists []. split_and!; [done..|].
    by constructor.
Qed.

(** Every way [write] can end. *)
Lemma targetStore_write_cases p state w :
  ∃ r w', write (at_path p) state w = (r, w') ∧
    faulty w' = faulty w ∧ held w' = held w ∧
    (∀ q, q ≠ p → q ≠ p +:+ ".tmp" → files w' !! q = files w !! q) ∧
    ((∃ e, r = Some e ∧ files w' !! p = files w !! p ∧
           (p ∈ faulty w ∨ (p +:+ ".tmp") ∈ faulty w)) ∨
     (r = None ∧
      files w' = <[p := Marshal_targetState state]> (delete (p +:+ ".tmp") (files w)))).
Proof.
  pose proof (tmp_file_apart p) as Hne.
  unfold write, os.WriteFile, os.Rename. io_unfold.
  destruct (decide ((p +:+ ".tmp") ∈ faulty w)) as [Htmp|Htmp]; simpl.
  { eexists _, _. split; [done|]. simpl. split_and!; [done..|]. left. eauto 6. }
  rewrite lookup_insert_eq.
  destruct (decide ((p +:+ ".tmp") ∈ faulty w ∨ p ∈ faulty w)) as [Hf|Hf]; simpl.
  { eexists _, _. split; [done|]. simpl. split_and!; [done| |..].
    - done.
    - intros q _ Hq. by rewrite lookup_insert_ne.
    - left. eexists. split_and!; [done| |tauto].
      by rewrite lookup_insert_ne. }
  eexists _, _. split; [done|]. simpl. split_and!; [done..| |].
  - intros q Hq Hq'. rewrite lookup_insert_ne, lookup_delete_ne by done.
    by rewrite lookup_insert_ne.
  - right. split; [done|]. by rewrite delete_insert_eq.
Qed.

Lemma Lock_cases lk w :
  ∃ r w1, flock.Lock lk w = (r, w1) ∧ faulty w1 = faulty w ∧
    (∀ q, q ≠ lk → files w1 !! q = files w !! q) ∧
    ((∃ e, r = Some e ∧ lk ∈ faulty w ∧
           w1 = set_trace (cons (EvLock lk)) w) ∨
     (r = None ∧ lk ∉ faulty w)).
Proof.
  unfold flock.Lock. io_unfold.
  destruct (decide (lk ∈ faulty w)) as [Hlk|Hlk]; simpl.
  - eexists _, _. split; [done|]. split_and!; [done..|]. left. eauto.
  - eexists _, _. split; [done|]. simpl. split_and!; [done| |by right].
    intros q Hq. destruct (files w !! lk); [done|]. by rewrite lookup_insert_ne.
Qed.

(** Every way the locked part of [Checkout] can end. *)
Lemma Checkout_locked_cases p w :
  ∃ r w', Checkout_locked (at_path p) w = (r, w') ∧
    faulty w' = faulty w ∧
    (∀ q, q ≠ p → q ≠ p +:+ ".tmp" → files w' !! q = files w !! q) ∧
    ((∃ e, r = ("", Some e) ∧ files w' !! p = files w !! p) ∨
     (r = ("", None) ∧ files w' = files w ∧
      ∃ l, persisted p w l ∧ Idle (compact (targetState.mk l)) = []) ∨
     (∃ l id rest, r = (id, None) ∧ persisted p w l ∧
        Idle (compact (targetState.mk l)) = id :: rest ∧
        files w' =
          <[p := Marshal_targetState (targetState.mk rest)]>
            (delete (p +:+ ".tmp") (files w)))).
Proof.
  unfold Checkout_locked.
  destruct (targetStore_read_cases p w) as (r & Hread & Hr).
  io_bind ltac:(exact Hread).
  destruct Hr as [(e & -> & _)|(l & -> & Hp & Hl)].
  { eexists _, _. split; [done|]. simpl. split_and!; [done..|]. left. eauto. }
  destruct (Idle (compact (targetState.mk l))) as [|id rest] eqn:Hn.
  { eexists _, _. split; [done|]. simpl. split_and!; [done..|].
    right; left. eauto. }
  destruct (targetStore_write_cases p (targetState.mk rest)
              (set_trace (cons (EvReadFile p)) w))
    as (r & w' & Hwrite & Hf & _ & Hframe & Hr).
  io_bind ltac:(exact Hwrite).
  destruct Hr as [(e & -> & Hfs & _)|(-> & Hfs)].
  - eexists _, _. split; [done|]. split_and!; [done..|]. left. eauto.
  - eexists _, _. split; [done|]. split_and!; [done..|].
    right; right. exists l, id, rest. eauto.
Qed.

(** Every way the locked part of [Checkin] can end. *)
Lemma Checkin_locked_cases p id w :
  ∃ r w', Checkin_locked (at_path p) id w = (r, w') ∧
    faulty w' = faulty w ∧
    (∀ q, q ≠ p → q ≠ p +:+ ".tmp" → files w' !! q = files w !! q) ∧
    ((∃ e, r = Some e ∧ files w' !! p = files w !! p) ∨
     (r = None ∧ files w' = files w ∧
      ∃ l, persisted p w l ∧ id ∈ Idle (compact (targetState.mk l))) ∨
     (∃ l, r = None ∧ persisted p w l ∧
        (id ∉ Idle (compact (targetState.mk l))) ∧
        files w' =
          <[p := Marshal_targetState (compact (targetState.mk (l ++ [id])))]>
            (delete (p +:+ ".tmp") (files w)))).
Proof.
  unfold Checkin_locked.
  destruct (targetStore_read_cases p w) as (r & Hread & Hr).
  io_bind ltac:(exact Hread).
  destruct Hr as [(e & -> & _)|(l & -> & Hp & Hl)].
  { eexists _, _. split; [done|]. simpl. split_and!; [done..|]. left. eauto. }
  destruct (decide (id ∈ Idle (compact (targetState.mk l)))) as [Hin|Hin].
  { eexists _, _. split; [done|]. simpl. split_and!; [done..|].
    right; left. eauto. }
  destruct (targetStore_write_cases p
              (compact (targetState.mk (Idle (compact (targetState.mk l)) ++ [id])))
              (set_trace (cons (EvReadFile p)) w))
    as (r & w' & Hwrite & Hf & _ & Hframe & Hr).
  rewrite Hwrite.
  destruct Hr as [(e & -> & Hfs & _)|(-> & Hfs)].
  - eexists _, _. split; [done|]. split_and!; [done..|]. left. eauto.
  - eexists _, _. split; [done|]. split_and!; [done..|].
    right; right. exists l. rewrite compact_compact_app in Hfs. eauto.
Qed.

(** Running a body between [Lock] and the deferred [Unlock]. *)
Lemma locked_run {A} p (body : IO A) (fail : error → A) w :
  ∃ w1, faulty w1 = faulty w ∧
    (∀ q, q ≠ p +:+ ".lock" → files w1 !! q = files w !! q) ∧
    (((p +:+ ".lock") ∈ faulty w ∧
      (err ← flock.Lock (lock (at_path p));
       match err with
       | Some e => mret (fail e)
       | None => deferring_Unlock (at_path p) body
       end) w = (fail (ErrFlock (p +:+ ".lock")),
                 set_trace (cons (EvLock (p +:+ ".lock"))) w)) ∨
     (((p +:+ ".lock") ∉ faulty w) ∧
      ∀ r w2, body w1 = (r, w2) →
        ∃ w', (err ← flock.Lock (lock (at_path p));
               match err with
               | Some e => mret (fail e)
               | None => deferring_Unlock (at_path p) body
               end) w = (r, w') ∧
              faulty w' = faulty w2 ∧ files w' = files w2)).
Proof.
  destruct (Lock_cases (p +:+ ".lock") w) as (r & w1 & Hlock & Hf & Hframe & Hr).
  exists w1. split_and!; [done..|].
  destruct Hr as [(e & -> & Hlk & ->)|(-> & Hlk)].
  - left. split; [done|]. simpl. io_bind ltac:(exact Hlock).
    revert Hlock. unfold flock.Lock. io_unfold.
    rewrite decide_True by done. by intros [= ->].
  - right. split; [done|]. intros r w2 Hbody. simpl.
    io_bind ltac:(exact Hlock). unfold deferring_Unlock.
    io_bind ltac:(exact Hbody). by eexists.
Qed.
End pool_cases.

Section pool_outcomes.
Context {json : JSON}.
Import targetState targetStore pool pool_more compact_facts.
Implicit Types (w : World) (p id : string) (l : list string).

Lemma lock_file_apart_tmp p : p +:+ ".tmp" ≠ p +:+ ".lock".
Proof. intros Heq. by apply (inj (String.app p)) in Heq. Qed.

(** Every way [Checkout] can end. *)
Lemma Checkout_cases p w :
  ∃ r w', Checkout (Some (at_path p)) w = (r, w') ∧
    faulty w' = faulty w ∧
    (∀ q, q ≠ p → q ≠ p +:+ ".tmp" → q ≠ p +:+ ".lock" →
          files w' !! q = files w !! q) ∧
    ((∃ e, r = ("", Some e) ∧ files w' !! p = files w !! p) ∨
     (r = ("", None) ∧ files w' !! p = files w !! p ∧
      ∃ l, persisted p w l ∧ Idle (compact (targetState.mk l)) = []) ∨
     (∃ l id rest, r = (id, None) ∧ persisted p w l ∧
        Idle (compact (targetState.mk l)) = id :: rest ∧
        files w' !! p = Some (Marshal_targetState (targetState.mk rest)) ∧
        files w' !! (p +:+ ".tmp") = None)).
Proof.
  pose proof (append_ne p ".lock" ltac:(done)) as Hlk.
  destruct (locked_run p (Checkout_locked (at_path p))
              (λ e, ("", Some (ErrWrap "acquire tab lock" e))) w)
    as (w1 & Hf1 & Hframe1 & [[_ Hrun]|[_ Hrun]]).
  { eexists _, _. split; [exact Hrun|]. simpl. split_and!; [done..|].
    left. eauto. }
  destruct (Checkout_locked_cases p w1) as (r & w2 & Hbody & Hf2 & Hframe2 & Hr).
  destruct (Hrun r w2 Hbody) as (w' & Hout & Hf & Hfs).
  assert (files w1 !! p = files w !! p) as Hp1 by (apply Hframe1; congruence).
  exists r, w'. split; [exact Hout|]. split_and!; [congruence| |].
  { intros q ???. rewrite Hfs, Hframe2 by done. by apply Hframe1. }
  rewrite Hfs.
  destruct Hr as [(e & -> & Hp)|[(-> & Hp & l & Hl & Hn)|(l & id & rest & -> & Hl & Hn & Hp)]].
  - left. exists e. split; [done|]. congruence.
  - right; left. split_and!; [done|by rewrite Hp|].
    exists l. split; [|done]. by eapply persisted_same_file.
  - right; right. exists l, id, rest. split_and!; [done| |done|..].
    + by eapply persisted_same_file.
    + by rewrite Hp, lookup_insert_eq.
    + rewrite Hp, lookup_insert_ne, lookup_delete_eq; [done|].
      intros Heq. by apply (append_ne p ".tmp").
Qed.

(** Every way [Checkin] of a non-empty identifier can end. *)
Lemma Checkin_cases p id w :
  id ≠ "" →
  ∃ r w', Checkin (Some (at_path p)) id w = (r, w') ∧
    faulty w' = faulty w ∧
    (∀ q, q ≠ p → q ≠ p +:+ ".tmp" → q ≠ p +:+ ".lock" →
          files w' !! q = files w !! q) ∧
    ((∃ e, r = Some e ∧ files w' !! p = files w !! p) ∨
     (r = None ∧ files w' !! p = files w !! p ∧
      ∃ l, persisted p w l ∧ id ∈ Idle (compact (targetState.mk l))) ∨
     (∃ l, r = None ∧ persisted p w l ∧
        (id ∉ Idle (compact (targetState.mk l))) ∧
        files w' !! p =
          Some (Marshal_targetState (compact (targetState.mk (l ++ [id])))) ∧
        files w' !! (p +:+ ".tmp") = None)).
Proof.
  intros Hid.
  pose proof (append_ne p ".lock" ltac:(done)) as Hlk.
  unfold Checkin. rewrite decide_False by done.
  destruct (locked_run p (Checkin_locked (at_path p) id)
              (λ e, Some (ErrWrap "acquire tab lock" e)) w)
    as (w1 & Hf1 & Hframe1 & [[_ Hrun]|[_ Hrun]]).
  { eexists _, _. split; [exact Hrun|]. simpl. split_and!; [done..|].
    left. eauto. }
  destruct (Checkin_locked_cases p id w1) as (r & w2 & Hbody & Hf2 & Hframe2 & Hr).
  destruct (Hrun r w2 Hbody) as (w' & Hout & Hf & Hfs).
  assert (files w1 !! p = files w !! p) as Hp1 by (apply Hframe1; congruence).
  exists r, w'. split; [exact Hout|]. split_and!; [congruence| |].
  { intros q ???. rewrite Hfs, Hframe2 by done. by apply Hframe1. }
  rewrite Hfs.
  destruct Hr as [(e & -> & Hp)|[(-> & Hp & l & Hl & Hn)|(l & -> & Hl & Hn & Hp)]].
  - left. exists e. split; [done|]. congruence.
  - right; left. split_and!; [done|by rewrite Hp|].
    exists l. split; [|done]. by eapply persisted_same_file.
  - right; right. exists l. split_and!; [done| |done|..].
    + by eapply persisted_same_file.
    + by rewrite Hp, lookup_insert_eq.
    + rewrite Hp, lookup_insert_ne, lookup_delete_eq; [done|].
      intros Heq. by apply (append_ne p ".tmp").
Qed.

Lemma compact_elements l x :
  x ∈ Idle (compact (targetState.mk l)) → x ≠ "" ∧ strings_TrimSpace x = x.
Proof.
  intros (Hx & y & _ & ->)%compact_spec. by rewrite TrimSpace_idemp.
Qed.

(** A sorted, duplicate-free list of trimmed, non-empty identifiers is in
    normal form. *)
Lemma compact_fixed l :
  Sorted String.le l → NoDup l →
  (∀ x, x ∈ l → x ≠ "" ∧ strings_TrimSpace x = x) →
  Idle (compact (targetState.mk l)) = l.
Proof.
  intros Hs Hn Hel. apply compact_unique; [done..|]. intros x. split.
  - intros Hx. destruct (Hel x Hx) as [? Htrim]. split; [done|]. eauto.
  - intros (Hx & y & Hy & ->). destruct (Hel y Hy) as [_ ->]. done.
Qed.

(** X3.  For every idle list [l], the list that [compact] leaves is
    sorted and has no duplicate; its elements are exactly the trimmed
    forms, when not empty, of the identifiers of [l], each of them not
    empty and equal to its own trimmed form; it is not longer than
    [l]; and [compact] of a compacted state changes nothing. *)
Theorem compact_normal_form l :
  let n := Idle (compact (targetState.mk l)) in
  Sorted String.le n ∧ NoDup n ∧
  (∀ x, x ∈ n ↔ kept l x) ∧
  (∀ x, x ∈ n → x ≠ "" ∧ strings_TrimSpace x = x) ∧
  compact (compact (targetState.mk l)) = compact (targetState.mk l) ∧
  (length n ≤ length l)%nat.
Proof.
  intros n. destruct (compact_spec l) as (Hs & Hn & Hel).
  split_and!; [done..|apply compact_elements|apply compact_idemp|].
  subst n. rewrite compact_Idle, sort_Strings_perm.
  assert (∀ l0 acc, length (foldl compact_step acc l0).2
                      ≤ length acc.2 + length l0)%nat as Hlen.
  { intros l0. induction l0 as [|y l0 IH]; intros acc; simpl; [lia|].
    etrans; [apply IH|]. unfold compact_step. destruct acc as [set idle].
    repeat case_decide; simpl; rewrite ?length_app; simpl; lia. }
  apply (Hlen l (∅, [])).
Qed.
End pool_outcomes.

Section pool_extras.
Context {json : JSON}.
Import targetState targetStore pool pool_more compact_facts.
Implicit Types (w : World) (p id : string) (l : list string).

(** X4.  Whenever [Checkout] returns an identifier that is not empty,
    its error is nil, the identifier is the first of the normalised
    persisted idle list, it is one of the identifiers kept of the
    persisted list and does not occur in the rest, and the state file
    holds the encoding of the rest: no identifier is handed out unless
    its removal has been persisted. *)
Theorem Checkout_hands_out_persisted p w id err w' :
  Checkout (Some (at_path p)) w = ((id, err), w') →
  id ≠ "" →
  err = None ∧
  ∃ l rest,
    persisted p w l ∧
    Idle (compact (targetState.mk l)) = id :: rest ∧
    kept l id ∧ (id ∉ rest) ∧
    files w' !! p = Some (Marshal_targetState (targetState.mk rest)).
Proof.
  intros Hrun Hid.
  destruct (Checkout_cases p w) as (r & w0 & Hrun' & _ & _ & Hr).
  rewrite Hrun in Hrun'. injection Hrun' as <- <-.
  destruct Hr as [(e & [= -> ->] & _)|[([= -> ->] & _)
                 |(l & id' & rest & [= -> ->] & Hl & Hn & Hp & _)]];
    [done..|].
  split; [done|]. exists l, rest. split_and!; [done..| | |done].
  - apply compact_spec. rewrite Hn. by left.
  - destruct (compact_spec l) as (_ & Hnd & _). rewrite Hn in Hnd.
    by apply NoDup_cons in Hnd as [? _].
Qed.

(** X5.  In any world, whatever operations the operating system
    refuses: when [Checkout] returns an error it returns the empty
    identifier and the state file is as it was, and when [Checkin]
    returns an error the state file is as it was. *)
Theorem pool_error_keeps_state p w :
  (∀ id e w', Checkout (Some (at_path p)) w = ((id, Some e), w') →
              id = "" ∧ files w' !! p = files w !! p) ∧
  (∀ id e w', Checkin (Some (at_path p)) id w = (Some e, w') →
              files w' !! p = files w !! p).
Proof.
  split.
  - intros id e w' Hrun.
    destruct (Checkout_cases p w) as (r & w0 & Hrun' & _ & _ & Hr).
    rewrite Hrun in Hrun'. injection Hrun' as <- <-.
    destruct Hr as [(e' & [= -> ->] & Hp)|[([= _ ?] & _)
                   |(l & id' & rest & [= _ ?] & _)]]; done.
  - intros id e w' Hrun.
    destruct (decide (id = "")) as [->|Hid]; [done|].
    destruct (Checkin_cases p id w Hid) as (r & w0 & Hrun' & _ & _ & Hr).
    rewrite Hrun in Hrun'. injection Hrun' as <- <-.
    destruct Hr as [(e' & _ & Hp)|[(? & _)|(l & ? & _)]]; done.
Qed.

(** Every way [Clear] can end. *)
Lemma Clear_cases p w :
  ((p ∈ faulty w) ∧
   Clear (Some (at_path p)) w
   = (Some (ErrWrap "remove tab state" (ErrPath "remove" p)),
      set_trace (cons (EvRemove p)) w)) ∨
  ((p ∉ faulty w) ∧
   ∃ w', Clear (Some (at_path p)) w = (None, w') ∧
         files w' = delete p (files w) ∧ faulty w' = faulty w ∧
         held w' = held w ∧ trace w' = EvRemove p :: trace w).
Proof.
  unfold Clear, os.Remove. io_unfold.
  destruct (decide (p ∈ faulty w)) as [Hp|Hp]; simpl; [by left|right].
  split; [done|].
  destruct (files w !! p) eqn:Hf; simpl; eexists; (split; [done|]); simpl;
    [done|]. split_and!; [|done..]. by rewrite delete_id.
Qed.

(** X6.  [Checkout], [Checkin] and [Clear] of the pool whose state
    file is [p] leave every file other than [p], its temporary file
    and its lock file as it was, whatever they return. *)
Theorem pool_touches_own_files p w q :
  q ≠ p → q ≠ p +:+ ".tmp" → q ≠ p +:+ ".lock" →
  files (Checkout (Some (at_path p)) w).2 !! q = files w !! q ∧
  (∀ id, files (Checkin (Some (at_path p)) id w).2 !! q = files w !! q) ∧
  files (Clear (Some (at_path p)) w).2 !! q = files w !! q.
Proof.
  intros Hq Hqt Hql. split_and!.
  - destruct (Checkout_cases p w) as (r & w0 & -> & _ & Hframe & _).
    by apply Hframe.
  - intros id. destruct (decide (id = "")) as [->|Hid]; [done|].
    destruct (Checkin_cases p id w Hid) as (r & w0 & -> & _ & Hframe & _).
    by apply Hframe.
  - destruct (Clear_cases p w) as [[_ Hrun]|(_ & w' & Hrun & Hfs & _)];
      rewrite Hrun; simpl; [done|]. by rewrite Hfs, lookup_delete_ne.
Qed.

Lemma targetStore_read_corrupt p w :
  p ∉ faulty w → corrupt p w →
  read (at_path p) w
  = ((targetState.mk [], Some (ErrWrap "decode tab state" ErrJSON)),
     set_trace (cons (EvReadFile p)) w).
Proof.
  intros Hp (b & Hf & Hb). unfold read. simpl.
  io_bind ltac:(by apply ReadFile_run). by rewrite Hf, Hb.
Qed.

Lemma corrupt_same_file p w w' :
  files w' !! p = files w !! p → corrupt p w → corrupt p w'.
Proof. intros Heq (b & Hf & Hb). exists b. by rewrite Heq. Qed.

(** X7.  When the state file is there and does not decode, on an
    operating system that serves the files of the pool: [Checkout]
    returns the empty identifier with the error of the decoding,
    wrapped as [decode tab state], [Checkin] of an identifier that is
    not empty returns that error, both leave the file undecodable, and
    [Clear] returns nil and leaves an empty pool. *)
Theorem corrupt_state_file p w :
  healthy p w → corrupt p w →
  (∃ w', Checkout (Some (at_path p)) w
         = (("", Some (ErrWrap "decode tab state" ErrJSON)), w') ∧
         corrupt p w') ∧
  (∀ id, id ≠ "" →
     ∃ w', Checkin (Some (at_path p)) id w
           = (Some (ErrWrap "decode tab state" ErrJSON), w') ∧
           corrupt p w') ∧
  (∃ w', Clear (Some (at_path p)) w = (None, w') ∧ persisted p w' []).
Proof.
  intros (Hp & Htmp & Hlock) Hbad. split_and!.
  - destruct (locked_run p (Checkout_locked (at_path p))
                (λ e, ("", Some (ErrWrap "acquire tab lock" e))) w)
      as (w1 & Hf1 & Hframe1 & [[? _]|[_ Hrun]]); [done|].
    assert (files w1 !! p = files w !! p) as Hp1.
    { apply Hframe1. intros Heq. by apply (append_ne p ".lock"). }
    edestruct Hrun as (w' & Hout & _ & Hfs).
    { unfold Checkout_locked.
      io_bind ltac:(apply targetStore_read_corrupt;
                    [by rewrite Hf1|by eapply corrupt_same_file]).
      done. }
    exists w'. split; [exact Hout|].
    eapply corrupt_same_file; [|exact Hbad]. by rewrite Hfs.
  - intros id Hid. unfold Checkin. rewrite decide_False by done.
    destruct (locked_run p (Checkin_locked (at_path p) id)
                (λ e, Some (ErrWrap "acquire tab lock" e)) w)
      as (w1 & Hf1 & Hframe1 & [[? _]|[_ Hrun]]); [done|].
    assert (files w1 !! p = files w !! p) as Hp1.
    { apply Hframe1. intros Heq. by apply (append_ne p ".lock"). }
    edestruct Hrun as (w' & Hout & _ & Hfs).
    { unfold Checkin_locked.
      io_bind ltac:(apply targetStore_read_corrupt;
                    [by rewrite Hf1|by eapply corrupt_same_file]).
      done. }
    exists w'. split; [exact Hout|].
    eapply corrupt_same_file; [|exact Hbad]. by rewrite Hfs.
  - destruct (Clear_cases p w) as [[? _]|(_ & w' & Hrun & Hfs & _)]; [done|].
    exists w'. split; [done|]. constructor. by rewrite Hfs, lookup_delete_eq.
Qed.

(** [Checkout] on a pool that the operating system serves. *)
Lemma Checkout_pop p w l id rest :
  healthy p w → persisted p w l →
  Idle (compact (targetState.mk l)) = id :: rest →
  ∃ w', Checkout (Some (at_path p)) w = ((id, None), w') ∧
        faulty w' = faulty w ∧
        files w' !! p = Some (Marshal_targetState (targetState.mk rest)).
Proof.
  intros (Hp & Htmp & Hlock) Hl Hn.
  destruct (Checkout_run_locked p w Hlock) as (w1 & Hf1 & Hfs1 & Hout).
  destruct (Checkout_locked_pop p w1 l id rest) as (w2 & Hrun2 & Hf2 & Hfs2);
    [by rewrite Hf1..|by eapply persisted_same_file|done|].
  destruct (Hout _ _ Hrun2) as (w' & Hrun & Hf & Hfs).
  exists w'. split_and!; [done|congruence|by rewrite Hfs].
Qed.

Lemma Checkout_none p w l :
  healthy p w → persisted p w l →
  Idle (compact (targetState.mk l)) = [] →
  ∃ w', Checkout (Some (at_path p)) w = (("", None), w') ∧
        faulty w' = faulty w ∧ files w' !! p = files w !! p.
Proof.
  intros (Hp & Htmp & Hlock) Hl Hn.
  destruct (Checkout_run_locked p w Hlock) as (w1 & Hf1 & Hfs1 & Hout).
  destruct (Checkout_locked_empty p w1 l) as (w2 & Hrun2 & Hf2 & Hfs2);
    [by rewrite Hf1|by eapply persisted_same_file|done|].
  destruct (Hout _ _ Hrun2) as (w' & Hrun & Hf & Hfs).
  exists w'. split_and!; [done|congruence|by rewrite Hfs, Hfs2].
Qed.

(** X8.  On a pool whose files the operating system serves, with the
    persisted idle list [l]: [Checkin] of an identifier that is not
    blank returns nil, and the [Checkout] that follows returns, with a
    nil error, the first identifier [m] of the normalisation of [l ++
    [id]] and persists the rest; [m] is at most the trimmed [id], and
    when the pool was empty [m] is the trimmed [id] and the pool is
    empty again. The state written by [Checkin] is assumed to be read
    back as written. *)
Theorem Checkin_then_Checkout p w l id :
  healthy p w → persisted p w l →
  strings_TrimSpace id ≠ "" →
  round_trips (compact (targetState.mk (l ++ [id]))) →
  ∃ w1 w2 m rest,
    Checkin (Some (at_path p)) id w = (None, w1) ∧
    Idle (compact (targetState.mk (l ++ [id]))) = m :: rest ∧
    Checkout (Some (at_path p)) w1 = ((m, None), w2) ∧
    files w2 !! p = Some (Marshal_targetState (targetState.mk rest)) ∧
    String.le m (strings_TrimSpace id) ∧
    (Idle (compact (targetState.mk l)) = [] →
     m = strings_TrimSpace id ∧ rest = []).
Proof.
  intros Hw Hl Hid Hrt.
  destruct (Checkin_persisted p id w l Hw Hl Hrt)
    as (w1 & l1 & Hin & Hf1 & Hl1 & Hc1 & _).
  destruct (compact_spec (l ++ [id])) as (Hs & Hnd & Hel).
  assert (strings_TrimSpace id ∈ Idle (compact (targetState.mk (l ++ [id]))))
    as Hmem.
  { apply Hel. split; [done|]. exists id. split; [|done].
    apply elem_of_app. right. by left. }
  destruct (Idle (compact (targetState.mk (l ++ [id])))) as [|m rest] eqn:Hn.
  { by apply elem_of_nil in Hmem. }
  destruct (Checkout_pop p w1 l1 m rest) as (w2 & Hout & _ & Hfs2);
    [by eapply healthy_same_faults|done|by rewrite Hc1|].
  exists w1, w2, m, rest. split_and!; [done..| |].
  - apply (Sorted_StronglySorted _) in Hs.
    apply StronglySorted_inv in Hs as [_ Hall].
    apply elem_of_cons in Hmem as [->|Hmem]; [done|].
    by eapply Forall_forall in Hall.
  - intros Hempty.
    assert (∀ x, x ∈ m :: rest → x = strings_TrimSpace id) as Honly.
    { intros x (Hx & y & Hy & ->)%Hel.
      apply elem_of_app in Hy as [Hy| ->%list_elem_of_singleton]; [|done].
      assert (strings_TrimSpace y ∈ Idle (compact (targetState.mk l))) as Hy'.
      { apply compact_spec. split; [done|]. eauto. }
      rewrite Hempty in Hy'. by apply elem_of_nil in Hy'. }
    split; [apply Honly; by left|].
    destruct rest as [|x rest]; [done|].
    apply NoDup_cons in Hnd as [Hnotin _]. destruct Hnotin.
    rewrite (Honly m) by by left. rewrite <-(Honly x) by (right; by left).
    by left.
Qed.

(** X9.  On a pool whose files the operating system serves and whose
    persisted idle list normalises to [n], one more [Checkout] than
    [n] has identifiers returns the identifiers of [n] in their order,
    which is increasing, each with a nil error, and then the empty
    identifier with a nil error; after them the persisted list is
    empty, and when [n] is empty the state file is as it was. The
    states written are assumed to be read back as written. *)
Theorem Checkouts_drain p : ∀ n w l0,
  healthy p w → persisted p w l0 →
  Idle (compact (targetState.mk l0)) = n →
  (∀ k, 0 < k ≤ length n → round_trips (targetState.mk (drop k n))) →
  ∃ w', Checkouts (Some (at_path p)) (S (length n)) w
        = (((λ x, (x, None)) <$> n) ++ [("", None)], w') ∧
        (n = [] → files w' !! p = files w !! p) ∧
        (n ≠ [] → persisted p w' []).
Proof.
  induction n as [|id rest IH]; intros w l0 Hw Hl Hn Hrt.
  - destruct (Checkout_none p w l0 Hw Hl Hn) as (w' & Hrun & _ & Hfs).
    exists w'. split_and!; [|done..]. simpl. by io_bind ltac:(exact Hrun).
  - destruct (Checkout_pop p w l0 id rest Hw Hl Hn) as (w1 & Hrun & Hf1 & Hfs1).
    assert (persisted p w1 rest) as Hl1.
    { econstructor 2; [exact Hfs1|]. apply (Hrt 1). simpl. lia. }
    destruct (compact_spec l0) as (Hs & Hnd & _). rewrite Hn in Hs, Hnd.
    assert (Idle (compact (targetState.mk rest)) = rest) as Hrest.
    { apply compact_fixed.
      - by apply Sorted_inv in Hs as [? _].
      - by apply NoDup_cons in Hnd as [_ ?].
      - intros x Hx. apply (compact_elements l0). rewrite Hn. by right. }
    destruct (IH w1 rest) as (w' & Hruns & Hsame & Hempty);
      [by eapply healthy_same_faults|done..| |].
    { intros k Hk. apply (Hrt (S k)). simpl. lia. }
    exists w'. split_and!; [|done|].
    + change (Checkouts (Some (at_path p)) (S (length (id :: rest))))
        with (r ← Checkout (Some (at_path p));
              rs ← Checkouts (Some (at_path p)) (S (length rest));
              mret (r :: rs)).
      io_bind ltac:(exact Hrun). by io_bind ltac:(exact Hruns).
    + intros _. destruct rest as [|x rest]; [|by apply Hempty].
      eapply persisted_same_file; [|exact Hl1]. by apply Hsame.
Qed.
End pool_extras.

Section cache_extras.
Context {json : JSON}.
Import cdpEndpointStore cache cache_more.
Implicit Types (w : World) (s : cdpEndpointStore.t) (host : string)
  (m : gmap string string).

Lemma Get_holds s w m host :
  holds s w m →
  Get (Some s) host w
  = (found m host, set_trace (cons (EvReadFile (path s))) w).
Proof.
  unfold holds. intros Hm.
  destruct (cdpEndpointStore_read_frame s w) as [r Hread].
  rewrite Hread in Hm. simpl in Hm. subst r.
  unfold Get. io_bind ltac:(exact Hread). simpl. unfold found.
  by destruct (m !! host).
Qed.

(** [read] looks at the cache file and at the faults only. *)
Lemma holds_same_file s w w' m :
  files w' !! path s = files w !! path s → faulty w' = faulty w →
  holds s w m → holds s w' m.
Proof.
  unfold holds, read, os.ReadFile. io_unfold. intros -> ->.
  by repeat (case_match; simpl in *; simplify_eq/=).
Qed.

Lemma Remember_run s host wsURL w m :
  host ≠ "" → wsURL ≠ "" →
  path s ∉ faulty w → (path s +:+ ".tmp") ∉ faulty w →
  holds s w m →
  round_trips (cdpEndpointState.mk (Some (<[host := wsURL]> m))) →
  ∃ w', Remember (Some s) host wsURL w = (None, w') ∧
        holds s w' (<[host := wsURL]> m) ∧
        faulty w' = faulty w ∧ http w' = http w ∧
        files w' !! path s
        = Some (Marshal_cdpEndpointState
                  (cdpEndpointState.mk (Some (<[host := wsURL]> m)))).
Proof.
  intros Hhost Hurl Hp Htmp Hm [Hlen Hrt]. unfold holds in Hm.
  destruct (cdpEndpointStore_read_frame s w) as [r Hread]. rewrite Hread in Hm.
  simpl in Hm. subst r.
  destruct (cdpEndpointStore_write_run s
              (cdpEndpointState.mk (Some (<[host := wsURL]> m)))
              (set_trace (cons (EvReadFile (path s))) w))
    as (w1 & Hrun1 & Hf1 & Hh1 & Hfs1 & _); [done..|].
  exists w1. split_and!; [| |done..|by rewrite Hfs1, lookup_insert_eq].
  - unfold Remember. rewrite decide_False by tauto.
    by io_bind ltac:(exact Hread).
  - eapply cdpEndpointStore_read_written; [by rewrite Hf1| |done..|by eexists].
    by rewrite Hfs1, lookup_insert_eq.
Qed.

(** X11.  When the cache file is missing or empty and the operating
    system lets it be read, the cache holds no entry: [Get] of any
    host returns the empty string, found = false and a nil error,
    after one read of the cache file. *)
Theorem Get_empty_cache s w host :
  path s ∉ faulty w →
  files w !! path s = None ∨ files w !! path s = Some "" →
  holds s w ∅ ∧
  Get (Some s) host w
  = (("", false, None), set_trace (cons (EvReadFile (path s))) w).
Proof.
  intros Hp Hfile.
  assert (holds s w ∅) as Hm.
  { unfold holds, read. io_bind ltac:(by apply ReadFile_run).
    by destruct Hfile as [->| ->]. }
  split; [done|]. by rewrite (Get_holds s w ∅).
Qed.

(** X12.  Two [Remember] calls in a row, with hosts and values that
    are not empty, on a cache that is read without error and whose
    files the operating system serves, return nil; after them [Get] of
    the second host returns the second value, so that of two values
    remembered for one host the last one stays; the first host has its
    value when the hosts differ; and every other host gets what it got
    before. The states written are assumed to be read back as written. *)
Theorem Remember_twice s w m h1 v1 h2 v2 :
  h1 ≠ "" → v1 ≠ "" → h2 ≠ "" → v2 ≠ "" →
  path s ∉ faulty w → (path s +:+ ".tmp") ∉ faulty w →
  holds s w m →
  round_trips (cdpEndpointState.mk (Some (<[h1 := v1]> m))) →
  round_trips (cdpEndpointState.mk (Some (<[h2 := v2]> (<[h1 := v1]> m)))) →
  ∃ w1 w2,
    Remember (Some s) h1 v1 w = (None, w1) ∧
    Remember (Some s) h2 v2 w1 = (None, w2) ∧
    (Get (Some s) h2 w2).1 = (v2, true, None) ∧
    (h1 ≠ h2 → (Get (Some s) h1 w2).1 = (v1, true, None)) ∧
    (∀ h, h ≠ h1 → h ≠ h2 → (Get (Some s) h w2).1 = (Get (Some s) h w).1).
Proof.
  intros ???? Hp Htmp Hm Hrt1 Hrt2.
  destruct (Remember_run s h1 v1 w m) as (w1 & Hrun1 & Hm1 & Hf1 & _);
    [done..|].
  destruct (Remember_run s h2 v2 w1 (<[h1 := v1]> m))
    as (w2 & Hrun2 & Hm2 & _); rewrite ?Hf1; [done..|].
  exists w1, w2. split_and!; [done..| | |].
  - rewrite (Get_holds _ _ _ _ Hm2). unfold found. simpl.
    by rewrite lookup_insert_eq.
  - intros Hne. rewrite (Get_holds _ _ _ _ Hm2). unfold found. simpl.
    by rewrite lookup_insert_ne, lookup_insert_eq.
  - intros h Hh1 Hh2.
    rewrite (Get_holds _ _ _ _ Hm2), (Get_holds _ _ _ _ Hm). unfold found.
    simpl. by rewrite !lookup_insert_ne.
Qed.

(** X13.  In any world, when [Remember] returns an error the cache
    file is as it was. When the cache file is not empty and does not
    decode, [Get] returns the empty string, found = false and the
    decoding error, and [Remember] of a host and a value that are not
    empty returns that error after its one read, without writing. *)
Theorem cache_error_keeps_file s w :
  (∀ host wsURL e w',
     Remember (Some s) host wsURL w = (Some e, w') →
     files w' !! path s = files w !! path s) ∧
  (path s ∉ faulty w → corrupt s w →
   (∀ host, Get (Some s) host w
            = (("", false, Some ErrJSON),
               set_trace (cons (EvReadFile (path s))) w)) ∧
   (∀ host wsURL, host ≠ "" → wsURL ≠ "" →
      Remember (Some s) host wsURL w
      = (Some ErrJSON, set_trace (cons (EvReadFile (path s))) w))).
Proof.
  split.
  - intros host wsURL e w'. unfold Remember.
    destruct (decide _); [done|].
    destruct (cdpEndpointStore_read_frame s w) as [[state err] Hread].
    io_bind ltac:(exact Hread). destruct err as [e'|]; [by intros [= _ <-]|].
    destruct (cdpEndpointState.Entries state) as [entries|];
      [|by intros [= _ <-]].
    unfold write, os.WriteFile, os.Rename. io_unfold.
    pose proof (append_ne (path s) ".tmp" ltac:(done)) as Hne.
    repeat (case_match; simpl in *; simplify_eq/=); intros; simplify_eq/=;
      rewrite ?lookup_insert_ne by done; done.
  - intros Hp (b & Hf & Hlen & Hb).
    assert (read s w = ((empty_state, Some ErrJSON),
                        set_trace (cons (EvReadFile (path s))) w)) as Hread.
    { unfold read. io_bind ltac:(by apply ReadFile_run). rewrite Hf.
      cbv beta iota. rewrite decide_False by done. by rewrite Hb. }
    split.
    + intros host. unfold Get. by io_bind ltac:(exact Hread).
    + intros host wsURL Hhost Hurl. unfold Remember.
      rewrite decide_False by tauto. by io_bind ltac:(exact Hread).
Qed.
End cache_extras.

Section resolve_extras.
Context {json : JSON} {neturl : NetURL}.
Import cdpEndpointStore cache cache_more.
Implicit Types (w : World) (raw host : string) (u : url.URL)
  (store : option cdpEndpointStore.t).

(** Every way the probe can end. *)
Lemma fetch_cases scheme host w :
  ∃ wsURL err,
    fetchWebsocketDebuggerURL scheme host w
    = ((wsURL, err),
       set_trace (cons (EvHTTPGet (json_version_endpoint scheme host))) w) ∧
    ((err = None ∧ probe_answers scheme host w wsURL) ∨
     (err ≠ None ∧ wsURL = "" ∧ probe_fails scheme host w)).
Proof.
  unfold probe_answers, probe_fails, fetchWebsocketDebuggerURL, http_Get.
  io_unfold.
  destruct (http w _) as [|status body]; [by eexists _, _; split; [|right]|].
  destruct (decide (status ≠ 200));
    [eexists _, _; split; [done|right]; split_and!; auto|].
  destruct (Decode_version body) as [ws|] eqn:Hdec;
    [|eexists _, _; split; [done|right]; split_and!; auto].
  destruct (decide (ws = "")) as [->|];
    [eexists _, _; split; [done|right]; split_and!; auto|].
  eexists _, _; split; [done|left]. split; [done|].
  exists body. split_and!; [|done..]. f_equal.
  destruct (decide (status = 200)); [done|tauto].
Qed.

Lemma fetch_answers scheme host w ws :
  probe_answers scheme host w ws →
  fetchWebsocketDebuggerURL scheme host w
  = ((ws, None),
     set_trace (cons (EvHTTPGet (json_version_endpoint scheme host))) w).
Proof.
  intros (body & Hhttp & Hdec & Hws).
  unfold fetchWebsocketDebuggerURL, http_Get. io_unfold. rewrite Hhttp.
  rewrite decide_False by (intros H; by apply H). rewrite Hdec.
  by rewrite decide_False.
Qed.

(** The lookup that [resolveCDPEndpoint] makes in the cache: what [Get]
    found, nothing when [Get] failed; only the trace changes. *)
Lemma resolve_lookup store host w :
  ∃ w1,
    (match store with
     | None => mret None
     | Some _ =>
         '(cached, ok, err) ← cdpEndpointStore.Get store host;
         match err, ok with
         | None, true => mret (Some cached)
         | Some e, _ =>
             _ ← slog_Warn "read cached cdp endpoint" e; mret None
         | None, false => mret None
         end
     end) w
    = (match (Get store host w).1 with
       | (cached, true, None) => Some cached
       | _ => None
       end, w1) ∧
    files w1 = files w ∧ faulty w1 = faulty w ∧ http w1 = http w ∧
    (∀ cached, (Get store host w).1 = (cached, true, None) →
               w1 = (Get store host w).2).
Proof.
  destruct store as [s|]; [|by exists w].
  destruct (Get_frame (Some s) host w)
    as ([[cached ok] err] & w1 & Hget & ? & ? & ?).
  io_bind ltac:(exact Hget). rewrite Hget. simpl.
  destruct err as [e|], ok; eexists;
    (split_and!; [done..|]); by intros ? [=].
Qed.

(** X14.  When the address normalises to [u] and [host], is not a
    direct reference, and [Get] finds an endpoint for [host] in the
    cache, [resolveCDPEndpoint] returns the cached endpoint, as it is,
    and the host key with a nil error; it has read the cache file and
    done nothing else: no request, no write. *)
Theorem resolve_cache_hit raw s w u host cached :
  resolveCDPEndpoint_normalize raw = inr (u, host) →
  strings_Contains (url.Path u) "/devtools/browser/" = false →
  (Get (Some s) host w).1 = (cached, true, None) →
  resolveCDPEndpoint raw (Some s) w
  = ((cached, host, None), set_trace (cons (EvReadFile (path s))) w).
Proof.
  intros Hnorm Hpath Hhit. unfold resolveCDPEndpoint. rewrite Hnorm, Hpath.
  destruct (resolve_lookup (Some s) host w) as (w1 & Hlookup & _ & _ & _ & Hw1).
  io_bind ltac:(exact Hlookup). rewrite Hhit. simpl.
  rewrite (Hw1 _ Hhit). do 2 f_equal.
  unfold Get. destruct (cdpEndpointStore_read_frame s w) as [[state err] Hread].
  io_bind ltac:(exact Hread). destruct err; [done|].
  by destruct (cdpEndpointState.Entries state ≫= _).
Qed.

(** X15.  When the resolution of an address reaches the probe (the
    address normalises to [u] and [host], is not a direct reference,
    and the cache has no endpoint for [host] or there is no store) and
    the probe answers with status 200 and an endpoint [ws] that is not
    empty, [resolveCDPEndpoint] returns [ws] and the host key with a
    nil error, whatever becomes of the cache: a failure to remember
    the endpoint is logged, not returned. The request is in the trace. *)
Theorem resolve_probe_success raw store w u host ws :
  resolveCDPEndpoint_normalize raw = inr (u, host) →
  strings_Contains (url.Path u) "/devtools/browser/" = false →
  ¬ hit store host w →
  probe_answers (url.Scheme u) host w ws →
  ∃ w', resolveCDPEndpoint raw store w = ((ws, host, None), w') ∧
        ws ≠ "" ∧ host ≠ "" ∧
        EvHTTPGet (json_version_endpoint (url.Scheme u) host) ∈ trace w'.
Proof.
  intros Hnorm Hpath Hmiss Hprobe. unfold resolveCDPEndpoint.
  rewrite Hnorm, Hpath.
  destruct (resolve_lookup store host w) as (w1 & Hlookup & _ & _ & Hhttp & _).
  io_bind ltac:(exact Hlookup).
  assert (match (Get store host w).1 with
          | (cached, true, None) => Some cached
          | _ => None
          end = None) as ->.
  { destruct (Get store host w) as [[[cached ok] err] w0] eqn:Hget. simpl.
    destruct ok, err; try done. destruct Hmiss. exists cached.
    by rewrite Hget. }
  cbv beta iota.
  io_bind ltac:(apply fetch_answers; destruct Hprobe as (body & ? & ?);
                exists body; by rewrite Hhttp).
  assert (ws ≠ "") as Hws by (by destruct Hprobe as (? & _ & _ & ?)).
  pose proof (normalize_host_nonempty _ _ _ Hnorm) as Hhost.
  set (w2 := set_trace _ w1).
  assert (EvHTTPGet (json_version_endpoint (url.Scheme u) host) ∈ trace w2)
    as Hev by (destruct w1; simpl; set_solver).
  clearbody w2.
  destruct store as [s|]; [|io_unfold; by eexists].
  destruct (cdpEndpointStore.Remember (Some s) host ws w2) as [err w3] eqn:Hrem.
  assert (trace w2 `suffix_of` trace w3) as Hsuf.
  { revert Hrem. unfold Remember. rewrite decide_False by tauto.
    destruct (cdpEndpointStore_read_frame s w2) as [[state e] Hread].
    io_bind ltac:(exact Hread). destruct e; [intros [= _ <-]; simpl; by apply suffix_cons_r|].
    destruct (cdpEndpointState.Entries state);
      [|intros [= _ <-]; simpl; by apply suffix_cons_r].
    unfold write, os.WriteFile, os.Rename. io_unfold.
    repeat case_match; intros; simplify_eq/=;
      repeat (apply suffix_cons_r); done. }
  destruct err as [e|];
    io_bind ltac:(io_bind ltac:(exact Hrem); reflexivity);
    eexists; (split_and!; [done..|]); simpl.
  - destruct Hsuf as [k ->]. set_solver.
  - destruct Hsuf as [k ->]. set_solver.
Qed.

(** X16.  With a store whose cache is read without error, has no
    endpoint for [host] and whose files the operating system serves,
    and a probe that answers with the endpoint [ws]:
    [resolveCDPEndpoint] returns [ws] with a nil error, the cache then
    holds [ws] for [host] beside its other entries, and a second
    resolution of the address returns [ws] again after a read of the
    cache file and nothing else: no second request. The state written
    is assumed to be read back as written. *)
Theorem resolve_caches raw s w u host ws m :
  resolveCDPEndpoint_normalize raw = inr (u, host) →
  strings_Contains (url.Path u) "/devtools/browser/" = false →
  path s ∉ faulty w → (path s +:+ ".tmp") ∉ faulty w →
  holds s w m → m !! host = None →
  probe_answers (url.Scheme u) host w ws →
  round_trips (cdpEndpointState.mk (Some (<[host := ws]> m))) →
  ∃ w1,
    resolveCDPEndpoint raw (Some s) w = ((ws, host, None), w1) ∧
    holds s w1 (<[host := ws]> m) ∧
    resolveCDPEndpoint raw (Some s) w1
    = ((ws, host, None), set_trace (cons (EvReadFile (path s))) w1).
Proof.
  intros Hnorm Hpath Hp Htmp Hm Hhost Hprobe Hrt.
  pose proof (normalize_host_nonempty _ _ _ Hnorm) as Hne.
  assert (ws ≠ "") as Hws by (by destruct Hprobe as (? & _ & _ & ?)).
  pose proof (Get_holds s w m host Hm) as Hget.
  unfold found in Hget. rewrite Hhost in Hget.
  set (w0 := set_trace (cons (EvReadFile (path s))) w) in *.
  set (w2 := set_trace
               (cons (EvHTTPGet (json_version_endpoint (url.Scheme u) host))) w0).
  destruct (Remember_run s host ws w2 m) as (w3 & Hrem & Hm3 & _);
    [done..| |done|].
  { eapply holds_same_file; [| |exact Hm]; done. }
  exists w3. split_and!; [|done|].
  - unfold resolveCDPEndpoint. rewrite Hnorm, Hpath.
    io_bind ltac:(io_bind ltac:(exact Hget); reflexivity).
    io_bind ltac:(apply fetch_answers; destruct Hprobe as (body & ? & ?);
                  by exists body).
    fold w2. io_bind ltac:(io_bind ltac:(exact Hrem); reflexivity).
    done.
  - unfold resolveCDPEndpoint. rewrite Hnorm, Hpath.
    pose proof (Get_holds s w3 _ host Hm3) as Hget3.
    unfold found in Hget3. rewrite lookup_insert_eq in Hget3.
    by io_bind ltac:(io_bind ltac:(exact Hget3); reflexivity).
Qed.

(** X17.  Every result of [resolveCDPEndpoint] is explained by the
    normalisation of the address. When it fails, the result is the
    empty endpoint, the empty host key and its error, and nothing has
    been done. Otherwise the host key is the normalised host, which is
    not empty; an error is then a failure of the probe, made without a
    cache hit, it comes with the text of the normalised URL, and no
    file has changed: errors of the cache are never returned; and a
    nil error comes with the text of a direct reference, the world
    unchanged, or with the endpoint found in the cache, or with the
    endpoint that the probe answered. *)
Theorem resolve_outcome raw store w endpoint host err w' :
  resolveCDPEndpoint raw store w = ((endpoint, host, err), w') →
  match resolveCDPEndpoint_normalize raw with
  | inl e => endpoint = "" ∧ host = "" ∧ err = Some e ∧ w' = w
  | inr (u, h) =>
      host = h ∧ host ≠ "" ∧
      (err ≠ None →
         endpoint = URL_String u ∧ probe_fails (url.Scheme u) h w ∧
         ¬ hit store h w ∧ files w' = files w) ∧
      (err = None →
         (endpoint = URL_String u ∧ w' = w ∧
          strings_Contains (url.Path u) "/devtools/browser/" = true) ∨
         (Get store h w).1 = (endpoint, true, None) ∨
         probe_answers (url.Scheme u) h w endpoint)
  end.
Proof.
  unfold resolveCDPEndpoint.
  destruct (resolveCDPEndpoint_normalize raw) as [e|[u h]] eqn:Hnorm.
  { by intros [= <- <- <- <-]. }
  pose proof (normalize_host_nonempty _ _ _ Hnorm) as Hne.
  destruct (strings_Contains _ _) eqn:Hpath.
  { intros [= <- <- <- <-]. split_and!; [done..|]. intros _. by left. }
  destruct (resolve_lookup store h w) as (w1 & Hlookup & Hfs1 & _ & Hhttp & _).
  io_bind ltac:(exact Hlookup).
  destruct (Get store h w) as [[[cached ok] gerr] w0] eqn:Hget. simpl.
  assert (ok = true ∧ gerr = None ∨ ¬ hit store h w) as [[-> ->]|Hmiss].
  { destruct ok, gerr; auto; right; intros [c Hc]; rewrite Hget in Hc;
      by simplify_eq/=. }
  { intros [= <- <- <- <-]. split_and!; [done..|]. intros _. right. by left. }
  assert (match gerr with
          | Some _ => None
          | None => if ok then Some cached else None
          end = @None string) as Hnone.
  { destruct gerr, ok; try done. destruct Hmiss. exists cached.
    by rewrite Hget. }
  replace (if ok then match gerr with Some _ => None | None => Some cached end
           else None) with (@None string) by (by destruct ok, gerr).
  cbv beta iota.
  destruct (fetch_cases (url.Scheme u) h w1)
    as (wsURL & ferr & Hfetch & [[-> Hans]|(Hferr & -> & Hfail)]).
  - io_bind ltac:(exact Hfetch).
    assert (probe_answers (url.Scheme u) h w wsURL) as Hans'.
    { destruct Hans as (body & ? & ?). exists body. by rewrite <-Hhttp. }
    set (w2 := set_trace _ w1). clearbody w2.
    destruct store as [s|].
    + destruct (cdpEndpointStore.Remember (Some s) h wsURL w2)
        as [rerr w3] eqn:Hrem.
      destruct rerr as [e|];
        io_bind ltac:(io_bind ltac:(exact Hrem); reflexivity);
        intros [= <- <- <- <-]; split_and!; auto; done.
    + io_unfold. intros [= <- <- <- <-]. split_and!; auto; done.
  - io_bind ltac:(exact Hfetch). destruct ferr as [e|]; [|done].
    intros [= <- <- <- <-]. split_and!; [done..| |done].
    intros _. split_and!; [done| |done|done].
    unfold probe_fails in *. by rewrite <-Hhttp.
Qed.

End resolve_extras.

Section pool_locking.
Context {json : JSON}.
Import targetState targetStore pool pool_more.
Implicit Types (w : World) (p id : string).

Ltac close_section :=
  first [ left; split_and!; [done..]
        | right; split_and!; [done|simpl; set_solver|];
          first [ eexists [_]; split; [reflexivity|]
                | eexists [_; _]; split; [reflexivity|]
                | eexists [_; _; _]; split; [reflexivity|] ];
          simpl; rewrite ?bool_decide_true by done; done ].

(** X10.  [Checkout], and [Checkin] of an identifier that is not
    empty, either fail to take the lock of the pool and do nothing
    else, or take it, read the state file, write the temporary file
    and rename it over the state file and nothing else, and give the
    lock back as their last action, so that it is not held afterwards;
    [Clear] removes the state file without taking the lock. *)
Theorem pool_lock_bracket p w :
  (∀ r w', Checkout (Some (at_path p)) w = (r, w') → locked_section p w w') ∧
  (∀ id r w', id ≠ "" →
     Checkin (Some (at_path p)) id w = (r, w') → locked_section p w w') ∧
  (∀ r w', Clear (Some (at_path p)) w = (r, w') →
     trace w' = EvRemove p :: trace w ∧ held w' = held w).
Proof.
  unfold locked_section. split_and!.
  - intros r w'. unfold Checkout, flock.Lock, deferring_Unlock, flock.Unlock,
      Checkout_locked, read, write, os.ReadFile, os.WriteFile, os.Rename.
    io_unfold.
    repeat (case_match; simpl in *; simplify_eq/=); intros; simplify_eq/=;
      close_section.
  - intros id r w' Hid. unfold Checkin. rewrite decide_False by done.
    unfold flock.Lock, deferring_Unlock, flock.Unlock,
      Checkin_locked, read, write, os.ReadFile, os.WriteFile, os.Rename.
    io_unfold.
    repeat (case_match; simpl in *; simplify_eq/=); intros; simplify_eq/=;
      close_section.
  - intros r w'. unfold Clear, os.Remove. io_unfold.
    repeat (case_match; simpl in *; simplify_eq/=); intros; by simplify_eq/=.
Qed.
End pool_locking.

Section registry_extras.
Import Sessions.
Implicit Types (m : Mem) (p q : positive) (obj : Session).

Lemma NewSession_run uuid now m :
  ∃ p c, NewSession uuid now m
         = (p, mkMem (<[p := mkSession uuid (Some c) now]> (objects m))
                     (<[c := Open]> (chans m)) (s m)) ∧
         objects m !! p = None ∧ chans m !! c = None.
Proof.
  exists (fresh (dom (objects m))), (fresh (dom (chans m))).
  split_and!; [done|..]; apply not_elem_of_dom, is_fresh.
Qed.

(** X19.  [NewSession] returns the address of an object that was not
    allocated, holding the identifier drawn and a channel that was not
    allocated and is open; the registry is as it was, so the session
    is not registered, the other session objects are as they were, and
    so is the state of the channel of every session that had one. *)
Theorem NewSession_fresh uuid now m p m' :
  NewSession uuid now m = (p, m') →
  objects m !! p = None ∧
  (∃ c, objects m' !! p = Some (mkSession uuid (Some c) now) ∧
        chans m !! c = None ∧ chans m' !! c = Some Open) ∧
  channel_of p m' = Some Open ∧
  s m' = s m ∧
  (∀ q, q ≠ p → objects m' !! q = objects m !! q) ∧
  (∀ q, is_Some (channel_of q m) → channel_of q m' = channel_of q m).
Proof.
  destruct (NewSession_run uuid now m) as (p0 & c & -> & Hp & Hc).
  intros [= <- <-]. simpl. split_and!; [done| | |done| |].
  - exists c. by rewrite !lookup_insert_eq.
  - unfold channel_of. simpl. rewrite lookup_insert_eq. simpl.
    by rewrite lookup_insert_eq.
  - intros q Hq. by rewrite lookup_insert_ne.
  - intros q. unfold channel_of. simpl.
    destruct (decide (q = p0)) as [->|Hq]; [rewrite Hp; by intros [? [=]]|].
    rewrite lookup_insert_ne by done.
    destruct (objects m !! q) as [obj|]; [|done].
    destruct (creq obj) as [c'|]; [|done].
    intros [st Hst]. rewrite lookup_insert_ne; [done|]. by intros <-; simplify_eq.
Qed.

(** X20.  The life of a session made by [NewSession]: [Add] registers
    it and [Get] of its identifier finds it; [Close] closes its
    channel and leaves it registered; a second [Close] panics;
    [Remove] unregisters it, its channel staying closed; and the other
    entries of the registry are as they were before [NewSession]. *)
Theorem Session_lifecycle uuid now m p m1 :
  NewSession uuid now m = (p, m1) →
  ∃ m2 m3 m4,
    Add (Some p) m1 = Returns tt m2 ∧
    Get uuid m2 = Returns (Some p, true) m2 ∧
    Session_Close (Some p) m2 = Returns tt m3 ∧
    channel_of p m3 = Some Closed ∧
    Get uuid m3 = Returns (Some p, true) m3 ∧
    Session_Close (Some p) m3 = Panics ∧
    Remove uuid m3 = Returns tt m4 ∧
    Get uuid m4 = Returns (None, false) m4 ∧
    channel_of p m4 = Some Closed ∧
    (∀ j, j ≠ uuid → s m4 !! j = s m !! j).
Proof.
  destruct (NewSession_run uuid now m) as (p0 & c & -> & Hp & Hc).
  intros [= <- <-]. eexists _, _, _.
  unfold Add, Get, Session_Close, Remove, channel_of. simpl.
  repeat (split;
    [by repeat (simpl; rewrite ?lookup_insert_eq, ?lookup_delete_eq)|]).
  simpl. intros j Hj. by rewrite lookup_delete_ne, lookup_insert_ne.
Qed.

(** X21.  When two sessions with one identifier are added, both [Add]
    calls return and [Get] of the identifier returns the second
    session: it has taken the place of the first, which is not closed;
    no session object and no channel has changed, and the other
    entries of the registry are as they were. *)
Theorem Add_same_id m p1 p2 obj1 obj2 :
  objects m !! p1 = Some obj1 → objects m !! p2 = Some obj2 →
  id obj1 = id obj2 →
  ∃ m1 m2,
    Add (Some p1) m = Returns tt m1 ∧
    Add (Some p2) m1 = Returns tt m2 ∧
    Get (id obj1) m2 = Returns (Some p2, true) m2 ∧
    channel_of p1 m2 = channel_of p1 m ∧
    objects m2 = objects m ∧ chans m2 = chans m ∧
    (∀ j, j ≠ id obj1 → s m2 !! j = s m !! j).
Proof.
  intros H1 H2 Hid.
  exists (mkMem (objects m) (chans m) (<[id obj1 := p1]> (s m))),
         (mkMem (objects m) (chans m)
                (<[id obj1 := p2]> (<[id obj1 := p1]> (s m)))).
  unfold Add, Get, channel_of. simpl.
  rewrite H1. simpl. rewrite H2. simpl. rewrite <-Hid.
  rewrite lookup_insert_eq.
  split_and!; [done..|]. intros j Hj. by rewrite !lookup_insert_ne.
Qed.

(** X22.  [Close] of a session returns only for a pointer to a session
    whose channel is open: it then closes that channel, changes no
    other channel, no session object and no entry of the registry, and
    a second [Close] panics. In every other case, a nil pointer, a
    pointer to no session, a nil channel, a closed channel, it panics. *)
Theorem Close_outcome m sp :
  match Session_Close sp m with
  | Panics =>
      ∀ p, sp = Some p → channel_of p m ≠ Some Open
  | Returns _ m' =>
      ∃ p obj c, sp = Some p ∧ objects m !! p = Some obj ∧ creq obj = Some c ∧
        channel_of p m = Some Open ∧ channel_of p m' = Some Closed ∧
        objects m' = objects m ∧ s m' = s m ∧
        (∀ c', c' ≠ c → chans m' !! c' = chans m !! c') ∧
        Session_Close sp m' = Panics
  end.
Proof.
  unfold Session_Close, channel_of.
  destruct sp as [p|]; simpl; [|done].
  destruct (objects m !! p) as [obj|] eqn:Hobj; simpl; [|by intros ? [= <-]; rewrite Hobj].
  destruct (creq obj) as [c|] eqn:Hc; [|by intros ? [= <-]; rewrite Hobj, Hc].
  destruct (chans m !! c) as [[|]|] eqn:Hch;
    [|by intros ? [= <-]; rewrite Hobj, Hc, Hch..].
  exists p, obj, c. simpl. rewrite Hobj. simpl. rewrite Hc.
  rewrite !lookup_insert_eq.
  split_and!; [done..| |done]. intros c' Hc'. by rewrite lookup_insert_ne.
Qed.

(** X23.  [Remove] always returns; after it [Get] of the identifier
    finds nothing and a second [Remove] changes nothing; and when the
    identifier was not registered the first [Remove] changes nothing
    either. *)
Theorem Remove_idempotent m i :
  ∃ m1, Remove i m = Returns tt m1 ∧
        Remove i m1 = Returns tt m1 ∧
        Get i m1 = Returns (None, false) m1 ∧
        (Get i m = Returns (None, false) m → m1 = m).
Proof.
  exists (mkMem (objects m) (chans m) (delete i (s m))).
  unfold Remove, Get. simpl. rewrite lookup_delete_eq.
  split_and!; [done| |done|].
  - by rewrite delete_delete_eq.
  - destruct (s m !! i) eqn:Hi; [done|]. intros _.
    rewrite delete_id by done. by destruct m.
Qed.
End registry_extras.

Section atomic_write_extras.
Import AtomicWrite.
Implicit Types (path data : string) (fs : gmap string string).

(** X24.  A write that was interrupted does not get in the way of the
    next one. From any state that the write sequence of [data] can be
    interrupted in, the whole write sequence of [data'] can run; it
    ends with the destination holding [data'] and without a temporary
    file, every other file being as it was before the interrupted
    write: the files are those of a write of [data'] over the first
    files. *)
Theorem write_after_crash path data data' fs0 ph fs :
  reachable path data fs0 (ph, fs) →
  ∃ fs', reachable path data' fs (Renamed, fs') ∧
         fs' !! path = Some data' ∧
         fs' !! tmp path = None ∧
         (∀ q, q ≠ path → q ≠ tmp path → fs' !! q = fs0 !! q) ∧
         fs' = <[path := data']> (delete (tmp path) fs0).
Proof.
  intros Hrun. exists (<[path := data']> (delete (tmp path) fs)).
  pose proof (tmp_ne path) as Hne.
  split; [apply complete_run|].
  apply reachable_files_in in Hrun. unfold files_in in Hrun. simpl in Hrun.
  assert (∀ q, q ≠ tmp path → q ≠ path → fs !! q = fs0 !! q) as Hframe.
  { intros q Hq Hq'. destruct ph as [|n| |].
    - by subst.
    - destruct Hrun as [_ ->]. by rewrite lookup_insert_ne.
    - subst. by rewrite lookup_insert_ne.
    - subst. by rewrite lookup_insert_ne, lookup_delete_ne. }
  split_and!.
  - by rewrite lookup_insert_eq.
  - by rewrite lookup_insert_ne, lookup_delete_eq.
  - intros q Hq Hq'. rewrite lookup_insert_ne, lookup_delete_ne by done. auto.
  - apply map_eq. intros q.
    destruct (decide (q = path)) as [->|Hq]; [by rewrite !lookup_insert_eq|].
    rewrite !lookup_insert_ne by done.
    destruct (decide (q = tmp path)) as [->|Hq']; [by rewrite !lookup_delete_eq|].
    rewrite !lookup_delete_ne by done. auto.
Qed.
End atomic_write_extras.

Section pool_extras_examples.
Import targetState targetStore pool pool_more Examples.
Existing Instance Reference.json.

Lemma sanitizeKey_safe_key_witness : sanitizeKey "work-1" = "work-1".
Proof.
  apply sanitizeKey_safe_key.
  - discriminate.
  - reflexivity.
  - vm_compute. lia.
  - apply Forall_forall. repeat (constructor; [reflexivity|]). constructor.
Defined.

Lemma Checkout_hands_out_persisted_witness :
  ∃ l rest,
    persisted tabs (world (pool_file ["t2"; "t1"])) l ∧
    Idle (compact (targetState.mk l)) = "t1" :: rest ∧
    kept l "t1" ∧ ("t1" ∉ rest).
Proof.
  destruct (Checkout_hands_out_persisted tabs (world (pool_file ["t2"; "t1"]))
              "t1" None
              (Checkout (Some (at_path tabs)) (world (pool_file ["t2"; "t1"]))).2)
    as (_ & l & rest & Hl & Hn & Hk & Hr & _).
  - vm_compute; reflexivity.
  - discriminate.
  - by exists l, rest.
Defined.

Lemma pool_touches_own_files_witness :
  files (Checkout (Some (at_path tabs))
           (world (<[ "notes.txt" := "n" ]> (pool_file ["t1"])))).2
    !! "notes.txt" = Some "n".
Proof.
  destruct (pool_touches_own_files tabs
              (world (<[ "notes.txt" := "n" ]> (pool_file ["t1"]))) "notes.txt")
    as (Hout & _ & _).
  - discriminate.
  - intros H. by vm_compute in H.
  - intros H. by vm_compute in H.
  - rewrite Hout. vm_compute; reflexivity.
Defined.

Lemma corrupt_state_file_witness :
  ∃ w', Checkout (Some (at_path tabs)) (world {[ tabs := "{" ]})
        = (("", Some (ErrWrap "decode tab state" ErrJSON)), w') ∧
        corrupt tabs w'.
Proof.
  destruct (corrupt_state_file tabs (world {[ tabs := "{" ]}))
    as ((w' & Hrun & Hbad) & _ & _).
  - apply healthy_world.
  - exists "{". split; vm_compute; reflexivity.
  - by exists w'.
Defined.

(** A disk that refuses the temporary file: the check-out fails and the
    identifier stays in the pool. *)
Lemma pool_error_keeps_state_witness :
  let w := mkWorld (pool_file ["t1"]) {[ tabs +:+ ".tmp" ]} ∅ (λ _, NoResponse) [] in
  ∃ e w', Checkout (Some (at_path tabs)) w = (("", Some e), w') ∧
          files w' !! tabs
          = Some (Reference.marshal_targetState (targetState.mk ["t1"])).
Proof.
  intros w.
  destruct (pool_error_keeps_state tabs w) as [Hkeep _].
  exists (ErrWrap "write tab state" (ErrPath "open" (tabs +:+ ".tmp"))), (Checkout (Some (at_path tabs)) w).2.
  assert (Checkout (Some (at_path tabs)) w
          = (("", Some (ErrWrap "write tab state" (ErrPath "open" (tabs +:+ ".tmp")))),
             (Checkout (Some (at_path tabs)) w).2)) as Hrun
    by (vm_compute; reflexivity).
  split; [exact Hrun|].
  destruct (Hkeep _ _ _ Hrun) as [_ ->]. vm_compute; reflexivity.
Defined.

Lemma Checkin_then_Checkout_witness :
  ∃ w1 w2,
    Checkin (Some (at_path tabs)) " t1 " (world ∅) = (None, w1) ∧
    Checkout (Some (at_path tabs)) w1 = (("t1", None), w2).
Proof.
  destruct (Checkin_then_Checkout tabs (world ∅) [] " t1 ")
    as (w1 & w2 & m & rest & Hin & Hn & Hout & _).
  - apply healthy_world.
  - by constructor.
  - vm_compute. discriminate.
  - vm_compute; reflexivity.
  - vm_compute in Hn. injection Hn as <- <-. by exists w1, w2.
Defined.

Lemma Checkouts_drain_witness :
  ∃ w', Checkouts (Some (at_path tabs)) 3 (world (pool_file ["t2"; "t1"; "t1"]))
        = ([("t1", None); ("t2", None); ("", None)], w') ∧
        persisted tabs w' [].
Proof.
  destruct (Checkouts_drain tabs ["t1"; "t2"]
              (world (pool_file ["t2"; "t1"; "t1"])) ["t2"; "t1"; "t1"])
    as (w' & Hrun & _ & Hl).
  - apply healthy_world.
  - econstructor 2; vm_compute; reflexivity.
  - vm_compute; reflexivity.
  - intros k [Hk1 Hk2].
    do 3 (destruct k as [|k]; [first [lia | vm_compute; reflexivity]|]).
    simpl in Hk2. lia.
  - exists w'. split; [exact Hrun|]. by apply Hl.
Defined.
End pool_extras_examples.

Section cache_extras_examples.
Import Examples Browser cache cache_more cdpEndpointStore.
Existing Instance Reference.json.
Existing Instance Reference.net_url.

Lemma Get_empty_cache_witness :
  Get (Some (cdpEndpointStore.mk cache)) "127.0.0.1:9222" (world {[ cache := "" ]})
  = (("", false, None),
     set_trace (cons (EvReadFile cache)) (world {[ cache := "" ]})).
Proof.
  destruct (Get_empty_cache (cdpEndpointStore.mk cache)
              (world {[ cache := "" ]}) "127.0.0.1:9222") as [_ Hget].
  - apply not_elem_of_empty.
  - right. vm_compute; reflexivity.
  - exact Hget.
Defined.

Lemma Remember_twice_witness :
  ∃ w1 w2,
    Remember (Some (cdpEndpointStore.mk cache)) "127.0.0.1:9222" "ws://old"
      (world ∅) = (None, w1) ∧
    Remember (Some (cdpEndpointStore.mk cache)) "127.0.0.1:9222" browser_ws w1
      = (None, w2) ∧
    (Get (Some (cdpEndpointStore.mk cache)) "127.0.0.1:9222" w2).1
    = (browser_ws, true, None).
Proof.
  destruct (Remember_twice (cdpEndpointStore.mk cache) (world ∅) ∅
              "127.0.0.1:9222" "ws://old" "127.0.0.1:9222" browser_ws)
    as (w1 & w2 & H1 & H2 & Hget & _).
  - discriminate.
  - discriminate.
  - discriminate.
  - discriminate.
  - apply not_elem_of_empty.
  - apply not_elem_of_empty.
  - vm_compute; reflexivity.
  - split; [vm_compute; discriminate|vm_compute; reflexivity].
  - split; [vm_compute; discriminate|vm_compute; reflexivity].
  - by exists w1, w2.
Defined.

(** A cache file cut short: [Remember] fails and does not write. *)
Lemma cache_error_keeps_file_witness :
  Remember (Some (cdpEndpointStore.mk cache)) "127.0.0.1:9222" browser_ws
    (world {[ cache := "{" ]})
  = (Some ErrJSON, set_trace (cons (EvReadFile cache)) (world {[ cache := "{" ]})).
Proof.
  destruct (cache_error_keeps_file (cdpEndpointStore.mk cache)
              (world {[ cache := "{" ]})) as [_ Hbad].
  destruct Hbad as [_ Hrem].
  - apply not_elem_of_empty.
  - exists "{". split_and!; [vm_compute; reflexivity|vm_compute; discriminate
                            |vm_compute; reflexivity].
  - apply Hrem; discriminate.
Defined.

Lemma resolve_cache_hit_witness :
  let w := world (cache_file {[ "127.0.0.1:9222" := browser_ws ]}) in
  resolveCDPEndpoint "127.0.0.1" (Some (cdpEndpointStore.mk cache)) w
  = ((browser_ws, "127.0.0.1:9222", None),
     set_trace (cons (EvReadFile cache)) w).
Proof.
  intros w.
  apply (resolve_cache_hit "127.0.0.1" (cdpEndpointStore.mk cache) w
           (url.mk "ws" "" None "127.0.0.1:9222" "" "" false "" "" "")).
  - vm_compute; reflexivity.
  - vm_compute; reflexivity.
  - vm_compute; reflexivity.
Defined.

Lemma resolve_probe_success_witness :
  ∃ w', resolveCDPEndpoint "127.0.0.1" None (answering browser_ws ∅)
        = ((browser_ws, "127.0.0.1:9222", None), w').
Proof.
  destruct (resolve_probe_success "127.0.0.1" None (answering browser_ws ∅)
              (url.mk "ws" "" None "127.0.0.1:9222" "" "" false "" "" "")
              "127.0.0.1:9222" browser_ws)
    as (w' & Hrun & _).
  - vm_compute; reflexivity.
  - vm_compute; reflexivity.
  - intros [cached Hhit]. vm_compute in Hhit. discriminate.
  - exists (version_body browser_ws).
    split_and!; [vm_compute; reflexivity|vm_compute; reflexivity|discriminate].
  - by exists w'.
Defined.

Lemma resolve_caches_witness :
  ∃ w1,
    resolveCDPEndpoint "127.0.0.1" (Some (cdpEndpointStore.mk cache))
      (answering browser_ws ∅)
    = ((browser_ws, "127.0.0.1:9222", None), w1) ∧
    resolveCDPEndpoint "127.0.0.1" (Some (cdpEndpointStore.mk cache)) w1
    = ((browser_ws, "127.0.0.1:9222", None),
       set_trace (cons (EvReadFile cache)) w1).
Proof.
  destruct (resolve_caches "127.0.0.1" (cdpEndpointStore.mk cache)
              (answering browser_ws ∅)
              (url.mk "ws" "" None "127.0.0.1:9222" "" "" false "" "" "")
              "127.0.0.1:9222" browser_ws ∅)
    as (w1 & Hrun & _ & Hagain).
  - vm_compute; reflexivity.
  - vm_compute; reflexivity.
  - apply not_elem_of_empty.
  - apply not_elem_of_empty.
  - vm_compute; reflexivity.
  - reflexivity.
  - exists (version_body browser_ws).
    split_and!; [vm_compute; reflexivity|vm_compute; reflexivity|discriminate].
  - split; [vm_compute; discriminate|vm_compute; reflexivity].
  - by exists w1.
Defined.

(** An address without a host: the host key is empty and nothing is
    done. *)
Lemma resolve_outcome_witness :
  let r := resolveCDPEndpoint "ws://" None (world ∅) in
  r.1.1.2 = "" ∧ r.1.2 = Some (ErrNew "missing host in cdp url: ws://") ∧
  r.2 = world ∅.
Proof.
  intros r.
  pose proof (resolve_outcome (json := Reference.json)
                (neturl := Reference.net_url) "ws://" None (world ∅)
                r.1.1.1 r.1.1.2 r.1.2 r.2 ltac:(vm_compute; reflexivity)) as Hout.
  assert (resolveCDPEndpoint_normalize "ws://"
          = inl (ErrNew "missing host in cdp url: ws://")) as Hn
    by (vm_compute; reflexivity).
  rewrite Hn in Hout. destruct Hout as (_ & Hhost & Herr & Hw).
  by split_and!.
Defined.

End cache_extras_examples.

Section registry_extras_examples.
Import Sessions.

Lemma NewSession_fresh_witness :
  let '(p, m) := NewSession 7 0 (mkMem ∅ ∅ ∅) in
  channel_of p m = Some Open ∧ s m = ∅.
Proof.
  destruct (NewSession 7 0 (mkMem ∅ ∅ ∅)) as [p m] eqn:Hnew.
  destruct (NewSession_fresh 7 0 (mkMem ∅ ∅ ∅) p m Hnew)
    as (_ & _ & Hopen & Hs & _).
  by split.
Defined.

Lemma Session_lifecycle_witness :
  let '(p, m1) := NewSession 7 0 (mkMem ∅ ∅ ∅) in
  ∃ m2 m3,
    Add (Some p) m1 = Returns tt m2 ∧
    Session_Close (Some p) m2 = Returns tt m3 ∧
    Get 7%N m3 = Returns (Some p, true) m3 ∧
    channel_of p m3 = Some Closed.
Proof.
  destruct (NewSession 7 0 (mkMem ∅ ∅ ∅)) as [p m1] eqn:Hnew.
  destruct (Session_lifecycle 7 0 (mkMem ∅ ∅ ∅) p m1 Hnew)
    as (m2 & m3 & m4 & Hadd & _ & Hclose & Hchan & Hget & _).
  by exists m2, m3.
Defined.

(** Two sessions with one identifier: the second takes the entry. *)
Lemma Add_same_id_witness :
  let m := mkMem {[ 1%positive := mkSession 7 (Some 1%positive) 0;
                    2%positive := mkSession 7 (Some 2%positive) 5 ]}
                 {[ 1%positive := Open; 2%positive := Open ]} ∅ in
  ∃ m1 m2,
    Add (Some 1%positive) m = Returns tt m1 ∧
    Add (Some 2%positive) m1 = Returns tt m2 ∧
    Get 7%N m2 = Returns (Some 2%positive, true) m2 ∧
    channel_of 1%positive m2 = Some Open.
Proof.
  intros m.
  destruct (Add_same_id m 1%positive 2%positive
              (mkSession 7 (Some 1%positive) 0) (mkSession 7 (Some 2%positive) 5))
    as (m1 & m2 & H1 & H2 & Hget & Hchan & _).
  - vm_compute; reflexivity.
  - vm_compute; reflexivity.
  - reflexivity.
  - exists m1, m2. split_and!; [exact H1|exact H2|exact Hget|].
    rewrite Hchan. vm_compute; reflexivity.
Defined.
End registry_extras_examples.

Section atomic_write_extras_examples.
Import AtomicWrite Examples.

(** Killed after three bytes of a write, then a whole write. *)
Lemma write_after_crash_witness :
  let old := Reference.marshal_targetState (targetState.mk ["t1"; "t2"]) in
  let new := Reference.marshal_targetState (targetState.mk ["t2"]) in
  let fs := <[tmp tabs := prefix 3 new]> (<[tmp tabs := ""]> {[ tabs := old ]}) in
  ∃ fs', reachable tabs new fs (Renamed, fs') ∧ fs' = {[ tabs := new ]}.
Proof.
  intros old new fs.
  destruct (write_after_crash tabs new new {[ tabs := old ]} (Writing 3) fs)
    as (fs' & Hrun & _ & _ & _ & Hfs').
  - eapply rtc_l; [apply step_open|]. eapply rtc_l; [|apply rtc_refl].
    apply (step_write tabs new 0 3); [lia|vm_compute; lia].
  - exists fs'. split; [exact Hrun|]. rewrite Hfs'. vm_compute; reflexivity.
Defined.
End atomic_write_extras_examples.
